(** * OpFeatureMatrixCache: the blockwise label-and-feature matrix cache

    A shallow embedding of [lazyflow/operators/opFeatureMatrixCache.py]
    and a verification of its behaviour as one sequential schedule: every
    request of the pool runs to completion (or to its exception) before
    the next one starts.

    - exceptions are values of [exn]; a Python computation that can raise
      returns a [result];
    - numpy arrays are a shape and the elements in C order ([ndarray]);
    - the operator's attributes are a record ([cache]); methods are state
      transformers that return the state they leave behind together with
      a value or the exception raised ([M]);
    - the two input slots are read through [inputs]: their meta data and
      a request function that may raise. *)

From Stdlib Require Import ZArith QArith Lia.
From stdpp Require Import gmap list sorting strings.

Local Open Scope Z_scope.
#[local] Set Warnings "-clear-no-such-hyp,-register-all".

(** ** Python exceptions and results *)

Inductive assert_msg :=
| NoMessage
| ShapesDoNotMatch (feature_shape label_shape : list Z).

Inductive exn :=
| AssertionError (msg : assert_msg)
| IndexError
| ValueError
| KeyError
| TypeError
| ZeroDivisionError
| UpstreamError (code : Z).

Inductive result (A : Type) :=
| Ok (a : A)
| Raise (e : exn).
Arguments Ok {A} a.
Arguments Raise {A} e.

Definition rbind {A B} (r : result A) (k : A → result B) : result B :=
  match r with
  | Ok a => k a
  | Raise e => Raise e
  end.

Notation "'try' x := r 'in' k" := (rbind r (λ x, k))
  (at level 10, x name, r at level 100, k at level 200, only parsing).

Fixpoint rmapM {A B} (f : A → result B) (l : list A) : result (list B) :=
  match l with
  | [] => Ok []
  | a :: l' => try b := f a in try bs := rmapM f l' in Ok (b :: bs)
  end.

Definition is_ok {A} (r : result A) : bool :=
  match r with Ok _ => true | Raise _ => false end.

(** ** numpy arrays *)

Record ndarray (A : Type) := mk_ndarray {
  shape : list Z;
  flat : list A   (* the elements in C (row-major) order *)
}.
Arguments mk_ndarray {A} shape flat.
Arguments shape {A} n.
Arguments flat {A} n.

Definition prod_shape (sh : list Z) : Z := foldr Z.mul 1 sh.

Definition size_of (sh : list Z) : nat := Z.to_nat (prod_shape sh).

(** All multi-indices of an array of shape [sh], in C order. *)
Fixpoint ndindex (sh : list Z) : list (list Z) :=
  match sh with
  | [] => [[]]
  | d :: sh' => flat_map (λ i, map (cons i) (ndindex sh')) (seqZ 0 d)
  end.

(** Offset in [flat] of the multi-index [idx]. *)
Fixpoint ravel (sh idx : list Z) (acc : Z) : Z :=
  match sh, idx with
  | d :: sh', i :: idx' => ravel sh' idx' (acc * d + i)
  | _, _ => acc
  end.

(** An integer index on an axis of length [d]: negative indices count
    from the end, anything else out of range raises. *)
Definition norm_index (d i : Z) : result Z :=
  if (0 <=? i) && (i <? d) then Ok i
  else if (- d <=? i) && (i <? 0) then Ok (i + d)
  else Raise IndexError.

Fixpoint norm_indices (sh idx : list Z) : result (list Z) :=
  match sh, idx with
  | d :: sh', i :: idx' =>
      try j := norm_index d i in
      try js := norm_indices sh' idx' in Ok (j :: js)
  | _, _ => Ok []
  end.

Section Arrays.
Context {A : Type}.

(** [numpy.ndarray(shape=sh)] for a shape with no element. *)
Definition empty_ndarray (sh : list Z) : ndarray A := mk_ndarray sh [].

(** [a[..., c]] *)
Definition getitem_last (a : ndarray A) (c : Z) : result (ndarray A) :=
  match last (shape a) with
  | None => Raise IndexError
  | Some d =>
      try c' := norm_index d c in
      let sh := removelast (shape a) in
      Ok (mk_ndarray sh
            (omap (λ j : nat, flat a !! (j * Z.to_nat d + Z.to_nat c')%nat)
                  (seq 0 (size_of sh))))
  end.

(** [a[cols]] for a tuple [cols] of index arrays, one per leading axis:
    row [i] of the outcome is the sub-array of [a] at the multi-index
    [(cols[0][i], ..., cols[k-1][i])]. *)
Definition getitem_arrays (a : ndarray A) (cols : list (list Z))
  : result (ndarray A) :=
  let k := length cols in
  match cols with
  | [] => Ok a
  | c0 :: _ =>
      if bool_decide (length (shape a) < k)%nat then Raise IndexError
      else if negb (forallb (λ c, bool_decide (length c = length c0)) cols)
      then Raise IndexError
      else
        let lead := take k (shape a) in
        let rest := drop k (shape a) in
        let m := size_of rest in
        try rows :=
          rmapM (λ i : nat,
                   try idx := norm_indices lead (map (λ c, nth i c 0) cols) in
                   Ok (take m (drop (Z.to_nat (ravel lead idx 0) * m) (flat a))))
                (seq 0 (length c0)) in
        Ok (mk_ndarray (Z.of_nat (length c0) :: rest) (concat rows))
  end.

(** [numpy.concatenate(l, axis=0)] *)
Definition concatenate_axis0 (l : list (ndarray A)) : result (ndarray A) :=
  match l with
  | [] => Raise ValueError
  | a :: _ =>
      match shape a with
      | [] => Raise ValueError
      | _ :: tl =>
          if forallb (λ b, match shape b with
                           | [] => false
                           | _ :: tlb => bool_decide (tlb = tl)
                           end) l
          then Ok (mk_ndarray
                     (foldr Z.add 0 (map (λ b, default 0 (head (shape b))) l) :: tl)
                     (concat (map flat l)))
          else Raise ValueError
      end
  end.

(** [numpy.concatenate((a, b), axis=1)] *)
Definition concatenate_axis1 (a b : ndarray A) : result (ndarray A) :=
  match shape a, shape b with
  | n :: ca :: ra, n' :: cb :: rb =>
      if bool_decide (n = n' ∧ ra = rb) then
        let wa := size_of (ca :: ra) in
        let wb := size_of (cb :: rb) in
        Ok (mk_ndarray (n :: (ca + cb) :: ra)
              (flat_map (λ i : nat, take wa (drop (i * wa) (flat a))
                                    ++ take wb (drop (i * wb) (flat b)))
                        (seq 0 (Z.to_nat n))))
      else Raise ValueError
  | _, _ => Raise ValueError
  end.
End Arrays.

(** [a.astype(t)], elementwise. *)
Definition astype {A B} (cast : A → B) (a : ndarray A) : ndarray B :=
  mk_ndarray (shape a) (map cast (flat a)).

(** [numpy.nonzero(a)]: one index array per axis, the positions of the
    non-zero elements in C order.  A 0-d array is read as a 1-d array of
    one element. *)
Definition nonzero (a : ndarray Z) : list (list Z) :=
  let sh := match shape a with [] => [1] | _ => shape a end in
  let pts := map fst (filter (λ p, snd p ≠ 0) (zip (ndindex sh) (flat a))) in
  map (λ ax : nat, map (λ p, nth ax p 0) pts) (seq 0 (length sh)).

(** [numpy.min] and [numpy.max] of an index array; both raise on an
    empty one. *)
Definition np_min (l : list Z) : result Z :=
  match l with
  | [] => Raise ValueError
  | x :: l' => Ok (foldr Z.min x l')
  end.

Definition np_max (l : list Z) : result Z :=
  match l with
  | [] => Raise ValueError
  | x :: l' => Ok (foldr Z.max x l')
  end.

(** ** The operator's slots *)

Inductive slot :=
| Slot_FeatureImage
| Slot_LabelImage
| Slot_NonZeroLabelBlocks
| Slot_LabelAndFeatureMatrix
| Slot_ProgressSignal.

Global Instance slot_eq_dec : EqDecision slot.
Proof. solve_decision. Defined.

Inductive axiskey := Key_t | Key_x | Key_y | Key_z | Key_c.

Global Instance axiskey_eq_dec : EqDecision axiskey.
Proof. solve_decision. Defined.

Record slot_meta := mk_meta {
  meta_shape : list Z;
  meta_axiskeys : list axiskey   (* meta.getAxisKeys() *)
}.

(** An input slot as the operator sees it: its meta data and
    [slot(start, stop).wait()], which returns the requested sub-array or
    raises. *)
Record input_slot (A : Type) := mk_input_slot {
  meta : slot_meta;
  request : list Z → list Z → result (ndarray A)
}.
Arguments mk_input_slot {A} meta request.
Arguments meta {A} i.
Arguments request {A} i start stop.

Record roi := mk_roi { start : list Z; stop : list Z }.

(** What [slot.setDirty(...)] tells the downstream operators. *)
Inductive dirty_notice :=
| Entire_slot
| Region (r : roi).

Inductive dtype := dtype_object.

Record output_meta := mk_output_meta {
  out_shape : list Z;
  out_dtype : dtype
}.

(** [shape[:-1]] and [shape[-1]] *)
Definition all_but_last {A} (l : list A) : list A := removelast l.

Definition getitem_m1 {A} (l : list A) : result A :=
  match last l with
  | Some x => Ok x
  | None => Raise IndexError
  end.

(** [l[-1] = x] *)
Definition setitem_m1 {A} (l : list A) (x : A) : result (list A) :=
  match l with
  | [] => Raise IndexError
  | _ => Ok (removelast l ++ [x])
  end.

(** ** The operator *)

Section OpFeatureMatrixCache.
(** The element type of the matrices ([numpy.float]) and the cast of a
    label to it. *)
Context {V : Type} (to_float : Z → V).

(** [lazyflow.roi] is imported by the operator and is not part of the
    sources at hand; its three functions are taken as they are called. *)
Variable determineBlockShape : list Z → Q → result (list Z).
Variable getIntersectingBlocks : list Z → list Z * list Z → result (list (list Z)).
Variable getBlockBounds : list Z → list Z → list Z → result (list Z * list Z).

Record inputs := mk_inputs {
  FeatureImage : input_slot V;
  LabelImage : input_slot Z
}.

(** The attributes of one operator and what it has sent out: the
    values [progressSignal] was fired with (oldest first), the meta
    data set on the two output slots, and the dirty notices sent on
    [LabelAndFeatureMatrix]. *)
Record cache := mk_cache {
  _blockshape : option (list Z);
  _blockwise_feature_matrices : gmap (list Z) (ndarray V);
  _dirty_blocks : gset (list Z);
  _block_locks : gset (list Z);
  progressSignal : list Q;
  LabelAndFeatureMatrix_meta : option output_meta;
  ProgressSignal_meta : option output_meta;
  ProgressSignal_value : bool;
  LabelAndFeatureMatrix_dirty : list dirty_notice
}.

(** [__init__] *)
Definition init : cache :=
  mk_cache None ∅ ∅ ∅ [] None None false [].

Definition set_blockshape (bs : list Z) (s : cache) : cache :=
  mk_cache (Some bs) (_blockwise_feature_matrices s) (_dirty_blocks s)
    (_block_locks s) (progressSignal s) (LabelAndFeatureMatrix_meta s)
    (ProgressSignal_meta s) (ProgressSignal_value s)
    (LabelAndFeatureMatrix_dirty s).

Definition set_matrices (m : gmap (list Z) (ndarray V)) (s : cache) : cache :=
  mk_cache (_blockshape s) m (_dirty_blocks s)
    (_block_locks s) (progressSignal s) (LabelAndFeatureMatrix_meta s)
    (ProgressSignal_meta s) (ProgressSignal_value s)
    (LabelAndFeatureMatrix_dirty s).

Definition set_dirty_blocks (d : gset (list Z)) (s : cache) : cache :=
  mk_cache (_blockshape s) (_blockwise_feature_matrices s) d
    (_block_locks s) (progressSignal s) (LabelAndFeatureMatrix_meta s)
    (ProgressSignal_meta s) (ProgressSignal_value s)
    (LabelAndFeatureMatrix_dirty s).

Definition set_block_locks (l : gset (list Z)) (s : cache) : cache :=
  mk_cache (_blockshape s) (_blockwise_feature_matrices s) (_dirty_blocks s)
    l (progressSignal s) (LabelAndFeatureMatrix_meta s)
    (ProgressSignal_meta s) (ProgressSignal_value s)
    (LabelAndFeatureMatrix_dirty s).

Definition fire_progress (q : Q) (s : cache) : cache :=
  mk_cache (_blockshape s) (_blockwise_feature_matrices s) (_dirty_blocks s)
    (_block_locks s) (progressSignal s ++ [q]) (LabelAndFeatureMatrix_meta s)
    (ProgressSignal_meta s) (ProgressSignal_value s)
    (LabelAndFeatureMatrix_dirty s).

Definition set_output_metas (s : cache) : cache :=
  mk_cache (_blockshape s) (_blockwise_feature_matrices s) (_dirty_blocks s)
    (_block_locks s) (progressSignal s)
    (Some (mk_output_meta [1] dtype_object))
    (Some (mk_output_meta [1] dtype_object)) true
    (LabelAndFeatureMatrix_dirty s).

Definition send_dirty (n : dirty_notice) (s : cache) : cache :=
  mk_cache (_blockshape s) (_blockwise_feature_matrices s) (_dirty_blocks s)
    (_block_locks s) (progressSignal s) (LabelAndFeatureMatrix_meta s)
    (ProgressSignal_meta s) (ProgressSignal_value s)
    (LabelAndFeatureMatrix_dirty s ++ [n]).

(** Methods: the state they leave behind, and a value or the
    exception raised.  What was done before a [raise] stays done. *)
Definition M (A : Type) : Type := cache → cache * result A.

Definition ret {A} (a : A) : M A := λ s, (s, Ok a).
Definition raise {A} (e : exn) : M A := λ s, (s, Raise e).
Definition lift {A} (r : result A) : M A := λ s, (s, r).
Definition get : M cache := λ s, (s, Ok s).
Definition modify (f : cache → cache) : M unit := λ s, (f s, Ok tt).

Definition bind {A B} (m : M A) (k : A → M B) : M B :=
  λ s, match m s with
       | (s', Ok a) => k a s'
       | (s', Raise e) => (s', Raise e)
       end.

Local Notation "x <~ m ;; k" := (bind m (λ x, k))
  (at level 100, m at next level, right associativity, only parsing).
Local Notation "m ;;; k" := (bind m (λ _, k))
  (at level 100, right associativity, only parsing).

Definition py_assert (b : bool) (msg : assert_msg) : M unit :=
  if b then ret tt else raise (AssertionError msg).

(** Aim for label request blocks of approximately 1 MB *)
Definition MAX_BLOCK_PIXELS : Q := 1000000%Q.

Definition setupOutputs (inp : inputs) : M unit :=
  kf <~ lift (getitem_m1 (meta_axiskeys (meta (FeatureImage inp)))) ;;
  py_assert (bool_decide (kf = Key_c)) NoMessage ;;;
  kl <~ lift (getitem_m1 (meta_axiskeys (meta (LabelImage inp)))) ;;
  py_assert (bool_decide (kl = Key_c)) NoMessage ;;;
  cl <~ lift (getitem_m1 (meta_shape (meta (LabelImage inp)))) ;;
  py_assert (bool_decide (cl = 1)) NoMessage ;;;
  py_assert
    (bool_decide (all_but_last (meta_shape (meta (FeatureImage inp)))
                  = all_but_last (meta_shape (meta (LabelImage inp)))))
    (ShapesDoNotMatch (meta_shape (meta (FeatureImage inp)))
                      (meta_shape (meta (LabelImage inp)))) ;;;
  modify set_output_metas ;;;
  bs <~ lift (determineBlockShape (meta_shape (meta (LabelImage inp)))
                                  MAX_BLOCK_PIXELS) ;;
  modify (set_blockshape bs).

Definition _extract_feature_matrix (inp : inputs) (label_roi : list Z * list Z)
  : result (ndarray V) :=
  try num_feature_channels := getitem_m1 (meta_shape (meta (FeatureImage inp))) in
  try labels := request (LabelImage inp) (fst label_roi) (snd label_roi) in
  try labels0 := getitem_last labels 0 in
  let label_positions := nonzero labels0 in
  try labels_picked := getitem_arrays labels label_positions in
  let labels_matrix := astype to_float labels_picked in
  if match label_positions with
     | [] => true
     | c0 :: _ => bool_decide (length c0 = 0%nat)
     end
  then
    (* No label points in this roi. *)
    Ok (empty_ndarray [0; 1 + num_feature_channels])
  else
    (* Shrink the roi to the bounding box of nonzero labels *)
    try bounding_box_start := rmapM np_min label_positions in
    try maxes := rmapM np_max label_positions in
    let bounding_box_stop := map (Z.add 1) maxes in
    (* offset the feature positions by the box start *)
    let feature_positions :=
      zip_with (λ col b, map (λ x, x - b) col)
               label_positions bounding_box_start in
    (* Append channel roi (all feature channels) *)
    let feature_roi_start := bounding_box_start ++ [0] in
    let feature_roi_stop := bounding_box_stop ++ [num_feature_channels] in
    (* Request features *)
    try features := request (FeatureImage inp) feature_roi_start feature_roi_stop in
    try features_matrix := getitem_arrays features feature_positions in
    concatenate_axis1 labels_matrix features_matrix.

Definition _update_block (inp : inputs) (block_start : list Z) : M unit :=
  s0 <~ get ;;
  (* the lock of the block is made on first use; one request at a
     time, so the second look under [self._lock] sees what the first saw *)
  (if bool_decide (block_start ∈ _block_locks s0) then ret tt
   else modify (λ s, set_block_locks ({[block_start]} ∪ _block_locks s) s)) ;;;
  (* with self._block_locks[block_start]: *)
  s1 <~ get ;;
  if bool_decide (block_start ∈ _dirty_blocks s1) then
    block_roi <~ match _blockshape s1 with
                 | Some bs => lift (getBlockBounds
                                      (meta_shape (meta (LabelImage inp)))
                                      bs block_start)
                 | None => raise TypeError
                 end ;;
    labels_and_features_matrix <~ lift (_extract_feature_matrix inp block_roi) ;;
    modify (λ s, set_matrices
                   (<[block_start := labels_and_features_matrix]>
                      (_blockwise_feature_matrices s)) s) ;;;
    s2 <~ get ;;
    if bool_decide (block_start ∈ _dirty_blocks s2)
    then modify (λ s, set_dirty_blocks (_dirty_blocks s ∖ {[block_start]}) s)
    else raise KeyError
  else
    (* Nothing to do if this block isn't actually dirty *)
    ret tt.

(** [95.0*(num_dirty_blocks - remaining_dirty)/num_dirty_blocks], as a
    rational number. *)
Definition percent_complete (num_dirty_blocks remaining_dirty : Z) : Q :=
  (95 * inject_Z (num_dirty_blocks - remaining_dirty)
   / inject_Z num_dirty_blocks)%Q.

Definition update_progress (num_dirty_blocks : Z) : M unit :=
  s <~ get ;;
  let remaining_dirty := Z.of_nat (size (_dirty_blocks s)) in
  if bool_decide (num_dirty_blocks = 0) then raise ZeroDivisionError
  else modify (fire_progress (percent_complete num_dirty_blocks remaining_dirty)).

(** Modelled from the spec: [lazyflow.request.Request] and
    [RequestPool], which are not part of the sources at hand.  A
    request runs its function and, if that returned, the callback
    given to [notify_finished]; the pool runs every request it was
    given, a failed one does not stop the others, and [wait] raises
    the first failure once all of them are done. *)
Fixpoint pool_run (requests : list (M unit * M unit)) (s : cache)
  : cache * option exn :=
  match requests with
  | [] => (s, None)
  | (fn, finished) :: rest =>
      let '(s1, r) := bind fn (λ _, finished) s in
      let '(s2, failure) := pool_run rest s1 in
      (s2, match r with
           | Raise e => Some e
           | Ok _ => failure
           end)
  end.

Definition pool_wait (requests : list (M unit * M unit)) : M unit :=
  λ s, let '(s', failure) := pool_run requests s in
       match failure with
       | Some e => (s', Raise e)
       | None => (s', Ok tt)
       end.

Definition execute (inp : inputs) (slot_ : slot) : M (ndarray V) :=
  py_assert (bool_decide (slot_ = Slot_LabelAndFeatureMatrix)) NoMessage ;;;
  modify (fire_progress 0%Q) ;;;
  s0 <~ get ;;
  let num_dirty_blocks := Z.of_nat (size (_dirty_blocks s0)) in
  (* Update all dirty blocks in the cache *)
  pool_wait (map (λ block_start,
                    (_update_block inp block_start,
                     update_progress num_dirty_blocks))
                 (elements (_dirty_blocks s0))) ;;;
  (* Concatenate the all blockwise results *)
  s1 <~ get ;;
  total_feature_matrix <~
    (if bool_decide (_blockwise_feature_matrices s1 = ∅)
     then ret (empty_ndarray [0; 0])
     else lift (concatenate_axis0
                  (map snd (map_to_list (_blockwise_feature_matrices s1))))) ;;
  modify (fire_progress 100%Q) ;;;
  ret total_feature_matrix.

Definition propagateDirty (slot_ : slot) (roi_ : roi) : M unit :=
  if bool_decide (slot_ = Slot_NonZeroLabelBlocks) then
    (* Label changes will be handled via labelimage dirtyness propagation *)
    ret tt
  else
    py_assert (bool_decide (slot_ = Slot_FeatureImage)
               || bool_decide (slot_ = Slot_LabelImage)) NoMessage ;;;
    (* Our blocks are tracked by label roi (1 channel) *)
    start' <~ lift (setitem_m1 (start roi_) 0) ;;
    stop' <~ lift (setitem_m1 (stop roi_) 1) ;;
    (* Bookkeeping: Track the dirty blocks *)
    s <~ get ;;
    block_starts <~ match _blockshape s with
                    | Some bs => lift (getIntersectingBlocks bs (start', stop'))
                    | None => raise TypeError
                    end ;;
    (* with self._lock: *)
    modify (λ s, set_dirty_blocks
                   (_dirty_blocks s ∪ list_to_set block_starts) s) ;;;
    (* Output has no notion of roi. It's all dirty. *)
    modify (send_dirty Entire_slot).

(** ** Notions the statements below are written with *)

(** What a recompute of [block_start] works out before it touches the
    cache: the bounds of the block, then its matrix. *)
Definition recompute (inp : inputs) (blockshape : option (list Z))
    (block_start : list Z) : result (ndarray V) :=
  match blockshape with
  | Some bs =>
      try block_roi := getBlockBounds (meta_shape (meta (LabelImage inp)))
                                      bs block_start in
      _extract_feature_matrix inp block_roi
  | None => Raise TypeError
  end.

(** The state once the lock of [b] exists, and the state once the
    matrix [m] is in the cache for [b] and [b] is no longer dirty. *)
Definition locked (b : list Z) (s : cache) : cache :=
  set_block_locks ({[b]} ∪ _block_locks s) s.

Definition installed (b : list Z) (m : ndarray V) (s : cache) : cache :=
  set_dirty_blocks (_dirty_blocks s ∖ {[b]})
    (set_matrices (<[b := m]> (_blockwise_feature_matrices s)) (locked b s)).

(** The requests [execute] puts in its pool. *)
Definition requests (inp : inputs) (num_dirty_blocks : Z)
    (blocks : list (list Z)) : list (M unit * M unit) :=
  map (λ block_start,
         (_update_block inp block_start, update_progress num_dirty_blocks))
      blocks.

(** The fetch of the label sub-array of [label_roi], or the fetch of
    the feature sub-array of the bounding box of its labeled points,
    raises [e]. *)
Inductive fetch_raises (inp : inputs) (label_roi : list Z * list Z) (e : exn)
  : Prop :=
| label_fetch_raises (K : Z) :
    getitem_m1 (meta_shape (meta (FeatureImage inp))) = Ok K →
    request (LabelImage inp) (fst label_roi) (snd label_roi) = Raise e →
    fetch_raises inp label_roi e
| feature_fetch_raises (K : Z) (labels labels0 picked : ndarray Z)
    (c0 : list Z) (cols : list (list Z)) (box_start maxes : list Z) :
    getitem_m1 (meta_shape (meta (FeatureImage inp))) = Ok K →
    request (LabelImage inp) (fst label_roi) (snd label_roi) = Ok labels →
    getitem_last labels 0 = Ok labels0 →
    getitem_arrays labels (nonzero labels0) = Ok picked →
    nonzero labels0 = c0 :: cols →
    c0 ≠ [] →
    rmapM np_min (nonzero labels0) = Ok box_start →
    rmapM np_max (nonzero labels0) = Ok maxes →
    request (FeatureImage inp) (box_start ++ [0])
            (map (Z.add 1) maxes ++ [K]) = Raise e →
    fetch_raises inp label_roi e.

(** The label sub-array fetched for [block_start] has one channel and
    no labeled point. *)
Definition no_labels_in (inp : inputs) (bs : list Z) (block_start : list Z)
  : Prop :=
  ∃ block_roi labels,
    getBlockBounds (meta_shape (meta (LabelImage inp))) bs block_start
      = Ok block_roi
    ∧ request (LabelImage inp) (fst block_roi) (snd block_roi) = Ok labels
    ∧ last (shape labels) = Some 1
    ∧ Forall (λ x, x = 0) (flat labels).

(** ** Histories of calls *)

Inductive call :=
| Call_setupOutputs (inp : inputs)
| Call_propagateDirty (slot_ : slot) (roi_ : roi)
| Call_update_block (inp : inputs) (block_start : list Z)
| Call_execute (inp : inputs) (slot_ : slot).

(** The state a call leaves behind, whether it returned or raised. *)
Definition after (c : call) (s : cache) : cache :=
  match c with
  | Call_setupOutputs inp => fst (setupOutputs inp s)
  | Call_propagateDirty slot_ roi_ => fst (propagateDirty slot_ roi_ s)
  | Call_update_block inp b => fst (_update_block inp b s)
  | Call_execute inp slot_ => fst (execute inp slot_ s)
  end.

Definition after_all (cs : list call) (s : cache) : cache :=
  foldl (λ s c, after c s) s cs.

(** The blocks the cache knows of: dirty, or with a matrix. *)
Definition known (s : cache) : gset (list Z) :=
  _dirty_blocks s ∪ dom (_blockwise_feature_matrices s).
End OpFeatureMatrixCache.

Arguments cache V : clear implicits.
Arguments inputs V : clear implicits.
Arguments call V : clear implicits.
Arguments M V A : clear implicits.

(** ** The block grid *)

(** Modelled from the spec: [lazyflow.roi.getBlockBounds], which is not
    part of the sources at hand: "returns the block's extent clipped to
    the array's bounds (edge blocks are smaller than interior blocks)". *)
Definition spec_getBlockBounds (dataset_shape block_shape block_start : list Z)
  : result (list Z * list Z) :=
  Ok (block_start,
      zip_with Z.min (zip_with Z.add block_start block_shape) dataset_shape).

(** Modelled from the spec: [lazyflow.roi.getIntersectingBlocks], which
    is not part of the sources at hand: "returns every block whose
    axis-aligned extent overlaps the given region; the computation is a
    per-axis floor/ceil division of the region's start/stop by the block
    length". *)
Definition spec_getIntersectingBlocks (blockshape : list Z)
    (region : list Z * list Z) : result (list (list Z)) :=
  let lo := zip_with Z.div (fst region) blockshape in
  let hi := zip_with (λ e b, (e + b - 1) / b) (snd region) blockshape in
  Ok (map (λ idx, zip_with Z.mul (zip_with Z.add lo idx) blockshape)
          (ndindex (zip_with Z.sub hi lo))).

(** ** Input feeds for the examples *)

(** A slot that serves the image [img] (a function of the global
    coordinates): the sub-array of a request holds the values of [img]
    at [start + i] for every index [i] of shape [stop - start]. *)
Definition image_slot {A} (m : slot_meta) (img : list Z → A) : input_slot A :=
  mk_input_slot m
    (λ start_ stop_,
       let sh := zip_with Z.sub stop_ start_ in
       Ok (mk_ndarray sh (map (λ i, img (zip_with Z.add start_ i)) (ndindex sh)))).

(** A slot whose every request fails. *)
Definition failing_slot {A} (m : slot_meta) (code : Z) : input_slot A :=
  mk_input_slot m (λ _ _, Raise (UpstreamError code)).

(** ** Example feeds *)

(** A line of four pixels with one feature channel, cut in blocks of
    two pixels (the blocks start at 0 and at 2).  Pixel 3 carries the
    label 1, no other pixel is labeled; the feature of pixel [x] is
    [10 * x]. *)
Definition line_meta : slot_meta := mk_meta [4; 1] [Key_x; Key_c].

Definition line_labels (p : list Z) : Z :=
  if bool_decide (p = [3; 0]) then 1 else 0.

Definition line_features (p : list Z) : Z := 10 * nth 0 p 0.

Definition line_inputs : inputs Z :=
  mk_inputs (image_slot line_meta line_features)
            (image_slot line_meta line_labels).

(** The same line when the feature feed is down. *)
Definition line_inputs_no_features : inputs Z :=
  mk_inputs (failing_slot line_meta 7) (image_slot line_meta line_labels).

(** Two block grids for the examples: blocks of two pixels along the
    first axis, and one block for the whole array (what a budget that the
    array fits in gives). *)
Definition blocks_of_two : list Z → Q → result (list Z) :=
  λ _ _, Ok [2; 1].

Definition whole_array_block : list Z → Q → result (list Z) :=
  λ sh _, Ok sh.

(** The line after setup and an invalidation of all of its labels. *)
Definition line_calls : list (call Z) :=
  [Call_setupOutputs line_inputs;
   Call_propagateDirty Slot_LabelImage (mk_roi [0; 0] [4; 1])].

Definition line_dirty : cache Z :=
  after_all id blocks_of_two spec_getIntersectingBlocks spec_getBlockBounds
    line_calls init.

(** A volume of 10 x 10 x 10 pixels with two feature channels and no
    label at all, held in one block. *)
Definition volume_inputs : inputs Z :=
  mk_inputs
    (image_slot (mk_meta [10; 10; 10; 2] [Key_x; Key_y; Key_z; Key_c])
                (λ p, foldr Z.add 0 p))
    (image_slot (mk_meta [10; 10; 10; 1] [Key_x; Key_y; Key_z; Key_c])
                (λ _, 0)).

Definition volume_dirty : cache Z :=
  after_all id whole_array_block spec_getIntersectingBlocks spec_getBlockBounds
    [Call_setupOutputs volume_inputs;
     Call_propagateDirty Slot_LabelImage (mk_roi [0; 0; 0; 0] [10; 10; 10; 1])]
    init.

(** A feature feed whose channel axis comes first, over a label feed of
    the same two pixels. *)
Definition channel_first_inputs : inputs Z :=
  mk_inputs (image_slot (mk_meta [2; 2] [Key_c; Key_x]) (λ _, 0))
            (image_slot (mk_meta [2; 1] [Key_x; Key_c]) (λ _, 0)).

(** ** Notions for the rows of a block matrix *)

(** The tuple of index arrays numpy uses for a list of points of [n]
    coordinates each: one array per axis. *)
Definition index_arrays (n : nat) (pts : list (list Z)) : list (list Z) :=
  map (λ ax : nat, map (λ p, nth ax p 0) pts) (seq 0 n).

(** The labeled points of the label image [labimg] inside the box of
    shape [sh] that starts at [start_], as positions relative to
    [start_], in C order. *)
Definition labeled_positions (labimg : list Z → Z) (start_ sh : list Z)
  : list (list Z) :=
  filter (λ p, labimg (zip_with Z.add start_ p ++ [0]) ≠ 0) (ndindex sh).

(** The row of a labeled point at position [p] relative to the start
    of its block: its label, then the feature image read at [p] itself,
    channel by channel. *)
Definition block_row {V} (to_float : Z → V) (labimg : list Z → Z)
    (featimg : list Z → V) (start_ : list Z) (K : Z) (p : list Z) : list V :=
  to_float (labimg (zip_with Z.add start_ p ++ [0]))
  :: map (λ ch, featimg (p ++ [ch])) (seqZ 0 K).

(** An index within the bounds of an axis. *)
Definition in_axis (d i : Z) : Prop := 0 ≤ i < d.

(** ** A volume held in one block *)

(** A volume of 4 x 4 x 4 pixels with one feature channel: label 1 on
    the pixel (0,0,0), label 2 on the pixel (3,3,3), and the sum of the
    coordinates as the feature. *)
Definition cube_labels (p : list Z) : Z :=
  if bool_decide (p = [0; 0; 0; 0]) then 1
  else if bool_decide (p = [3; 3; 3; 0]) then 2 else 0.

Definition cube_features (p : list Z) : Z := foldr Z.add 0 p.

Definition cube_meta : slot_meta :=
  mk_meta [4; 4; 4; 1] [Key_x; Key_y; Key_z; Key_c].

Definition cube_inputs : inputs Z :=
  mk_inputs (image_slot cube_meta cube_features)
            (image_slot cube_meta cube_labels).

Definition cube_dirty : cache Z :=
  after_all id whole_array_block spec_getIntersectingBlocks spec_getBlockBounds
    [Call_setupOutputs cube_inputs;
     Call_propagateDirty Slot_LabelImage (mk_roi [0; 0; 0; 0] [4; 4; 4; 1])]
    init.

(** * lazyflow/jsonConfig.py: the schema of a json config file *)

(** ** Values, exceptions, ordered dictionaries *)

(** The values a config holds: what [json.load] builds from null,
    booleans, integers, strings and lists, and what the field types
    build from them. *)
Inductive pyval :=
| PyNone
| PyBool (b : bool)
| PyInt (n : Z)
| PyStr (s : string)
| PyUnicode (s : string)
| PyList (l : list pyval).

(** ["{}".format(type(val))] *)
Definition type_repr (val : pyval) : string :=
  match val with
  | PyNone => "<type 'NoneType'>"
  | PyBool _ => "<type 'bool'>"
  | PyInt _ => "<type 'int'>"
  | PyStr _ => "<type 'str'>"
  | PyUnicode _ => "<type 'unicode'>"
  | PyList _ => "<type 'list'>"
  end.

Inductive config_exn :=
| ParsingError (msg : string)   (* JsonConfigSchema.ParsingError *)
| Uncaught (e : exn).           (* any exception of another class *)

Inductive outcome (A : Type) :=
| Done (a : A)
| Raised (e : config_exn).
Arguments Done {A} a.
Arguments Raised {A} e.

(** [collections.OrderedDict] with string keys: the items in the order
    their keys were first set. *)
Fixpoint od_get {A} (key : string) (d : list (string * A)) : option A :=
  match d with
  | [] => None
  | (k, v) :: d' => if decide (k = key) then Some v else od_get key d'
  end.

Fixpoint od_set {A} (key : string) (val : A) (d : list (string * A))
  : list (string * A) :=
  match d with
  | [] => [(key, val)]
  | (k, v) :: d' =>
      if decide (k = key) then (k, val) :: d' else (k, v) :: od_set key val d'
  end.

Definition od_keys {A} (d : list (string * A)) : list string := map fst d.

(** ** Namespace *)

Record Namespace := mk_Namespace { _items : list (string * pyval) }.

(** [Namespace()] *)
Definition Namespace_new : Namespace := mk_Namespace [].

(** The method [__getattr__] as the class defines it: the item of the
    store, KeyError if there is none.  Python does not call it for every
    name that is read, see [getattr]. *)
Definition __getattr__ (self : Namespace) (key : string) : outcome pyval :=
  match od_get key (_items self) with
  | Some val => Done val
  | None => Raised (Uncaught KeyError)
  end.

(** Reading an attribute, [getattr(self, key)] or [self.key].  Python
    looks the name up the normal way first and calls [__getattr__] only
    when that raised AttributeError.  The normal lookup is Python's
    [object.__getattribute__], not code of the sources, and is a
    parameter here: [normal_lookup self key] is [Some a] when it finds
    the attribute [a] (as it does for the store [_items], which
    [__init__] sets on the instance, for the property [__dict__], for
    the methods of the class and for what [object] provides), and
    [None] when it raises AttributeError.  The result is what the
    normal lookup found, on the left, or what [__getattr__] returned,
    on the right. *)
Definition getattr {A} (normal_lookup : Namespace → string → option A)
    (self : Namespace) (key : string) : outcome (A + pyval) :=
  match normal_lookup self key with
  | Some a => Done (inl a)
  | None =>
      match __getattr__ self key with
      | Done val => Done (inr val)
      | Raised e => Raised e
      end
  end.

Definition __setattr__ (self : Namespace) (key : string) (val : pyval)
  : Namespace :=
  mk_Namespace (od_set key val (_items self)).

Definition __dict__ (self : Namespace) : list (string * pyval) := _items self.

(** ** JsonConfigSchema *)

(** The type (or pseudo-type) of a schema field: the builtin [bool],
    which [_transformValue] singles out, or any other callable. *)
Inductive field_type :=
| FT_bool
| FT_callable (call : pyval → outcome pyval).

Definition newline : string := String (Ascii.ascii_of_nat 10) EmptyString.

Definition _transformValue (fieldType : field_type) (val : pyval)
  : outcome pyval :=
  match val with
  | PyNone =>
      (* config file is allowed to contain null values *)
      Done PyNone
  | _ =>
      match fieldType with
      | FT_bool =>
          match val with
          | PyBool _ => Done val   (* bool(val) *)
          | _ => Raised (ParsingError ("Expected bool, got " +:+ type_repr val))
          end
      | FT_callable call => call val
      end
  end.

(** The first loop of [_getNamespace]: the items of the config, in
    order; keys the schema does not know are skipped. *)
Fixpoint parse_items (_fields : list (string * field_type))
    (items : list (string * pyval)) (namespace : Namespace)
  : outcome Namespace :=
  match items with
  | [] => Done namespace
  | (key, value) :: rest =>
      match od_get key _fields with
      | Some fieldType =>
          match _transformValue fieldType value with
          | Done finalValue =>
              parse_items _fields rest (__setattr__ namespace key finalValue)
          | Raised (ParsingError msg) =>
              Raised (ParsingError ("Error parsing config field '" +:+ key
                                    +:+ "':" +:+ newline +:+ msg))
          | Raised e => Raised e
          end
      | None => parse_items _fields rest namespace
      end
  end.

(** The second loop: all other config fields are None by default. *)
Definition fill_defaults (keys : list string) (namespace : Namespace)
  : Namespace :=
  foldl (λ ns key,
           if bool_decide (key ∈ od_keys (__dict__ ns)) then ns
           else __setattr__ ns key PyNone)
        namespace keys.

Definition _getNamespace (_fields : list (string * field_type))
    (configDict : list (string * pyval)) : outcome Namespace :=
  match parse_items _fields configDict Namespace_new with
  | Done namespace => Done (fill_defaults (od_keys _fields) namespace)
  | Raised e => Raised e
  end.


(** [writeConfigFile], up to the file itself: the dictionary it hands
    to [json.dump], or the exception of the check before. *)
Definition writeConfigFile (_fields : list (string * field_type))
    (configNamespace : Namespace) : outcome (list (string * pyval)) :=
  match _getNamespace _fields (__dict__ configNamespace) with
  | Done namespace => Done (__dict__ namespace)
  | Raised e => Raised e
  end.

(** A field type whose values pass through it unchanged when given to
    it again, as [int], [str] and [bool] are. *)
Definition idempotent_type (fieldType : field_type) : Prop :=
  match fieldType with
  | FT_bool => True
  | FT_callable call =>
      ∀ val out, call val = Done out → out = PyNone ∨ call out = Done out
  end.

(** What the first loop keeps of one item of the config: nothing if
    the schema does not know the key, else the key with the value
    transformed. *)
Definition accepted_item (_fields : list (string * field_type))
    (item : string * pyval) : option (string * pyval) :=
  match od_get (fst item) _fields with
  | Some fieldType =>
      match _transformValue fieldType (snd item) with
      | Done finalValue => Some (fst item, finalValue)
      | Raised _ => None
      end
  | None => None
  end.

(** The item of a config passes the schema: its key is unknown, or its
    value is transformed without an exception. *)
Definition item_passes (_fields : list (string * field_type))
    (item : string * pyval) : Prop :=
  ∀ fieldType, od_get (fst item) _fields = Some fieldType →
               ∃ finalValue, _transformValue fieldType (snd item) = Done finalValue.

(** A schema and two config files for it.  [nonneg_int] is a
    pseudo-type of the kind a schema is built with: a callable that
    checks the value while it constructs. *)
Definition nonneg_int (val : pyval) : outcome pyval :=
  match val with
  | PyInt n =>
      if decide (0 ≤ n) then Done val
      else Raised (ParsingError "Expected a non-negative number")
  | _ => Raised (Uncaught TypeError)
  end.

Definition example_fields : list (string * field_type) :=
  [("verbose", FT_bool); ("workers", FT_callable nonneg_int);
   ("retries", FT_callable nonneg_int)].

Definition example_config : list (string * pyval) :=
  [("workers", PyInt 4); ("comment", PyStr "nightly");
   ("verbose", PyBool true)].

Definition example_namespace : Namespace :=
  mk_Namespace
    [("workers", PyInt 4); ("verbose", PyBool true); ("retries", PyNone)].

(** A normal lookup for the examples: it finds the instance attribute
    [_items], the names of the class body and the names [object]
    provides, and gives the name as the attribute found. *)
Definition namespace_names : list string :=
  ["_items"; "__dict__"; "__init__"; "__getattr__"; "__setattr__";
   "__module__"; "__doc__"; "__weakref__"; "__class__"; "__delattr__";
   "__format__"; "__getattribute__"; "__hash__"; "__new__"; "__reduce__";
   "__reduce_ex__"; "__repr__"; "__sizeof__"; "__str__";
   "__subclasshook__"].

Definition example_lookup (self : Namespace) (key : string) : option string :=
  if bool_decide (key ∈ namespace_names) then Some key else None.


(** * Properties *)

Section Properties.
Context {V : Type} (to_float : Z → V).
Variable getBlockBounds : list Z → list Z → list Z → result (list Z * list Z).

Local Abbreviation extract := (_extract_feature_matrix to_float).
Local Abbreviation update_block := (_update_block to_float getBlockBounds).
Local Abbreviation exec := (execute to_float getBlockBounds).
Local Abbreviation recomp := (recompute to_float getBlockBounds).
Local Abbreviation matrices := _blockwise_feature_matrices.

Implicit Types (s : cache V) (inp : inputs V) (b : list Z).

(** *** One recompute *)

Lemma locked_known b s : b ∈ _block_locks s → locked b s = s.
Proof.
  intros Hin. destruct s as [bs ms ds ls ps m1 m2 v od]; unfold locked; simpl in *.
  unfold set_block_locks; simpl. f_equal.
  apply leibniz_equiv. intros x. rewrite elem_of_union, elem_of_singleton.
  split; [intros [->|]; done | by right].
Qed.

Lemma update_block_eq inp b s :
  update_block inp b s =
    if bool_decide (b ∈ _dirty_blocks s) then
      match recomp inp (_blockshape s) b with
      | Ok m => (installed b m s, Ok tt)
      | Raise e => (locked b s, Raise e)
      end
    else (locked b s, Ok tt).
Proof.
  unfold _update_block, bind, get, modify, ret, lift, raise, recompute.
  destruct (bool_decide (b ∈ _block_locks s)) eqn:Hl.
  - apply bool_decide_eq_true in Hl. rewrite (locked_known b s Hl).
    destruct (bool_decide (b ∈ _dirty_blocks s)) eqn:Hd; [|done].
    destruct (_blockshape s) as [bs|]; [|done]. simpl.
    destruct (getBlockBounds _ bs b) as [roi_|e]; [|done]. simpl.
    destruct (extract inp roi_) as [m|e]; [|done]. simpl.
    rewrite Hd. unfold installed. by rewrite (locked_known b s Hl).
  - simpl. fold (locked b s).
    destruct (bool_decide (b ∈ _dirty_blocks s)) eqn:Hd; [|done].
    destruct (_blockshape s) as [bs|]; [|done]. simpl.
    destruct (getBlockBounds _ bs b) as [roi_|e]; [|done]. simpl.
    destruct (extract inp roi_) as [m|e]; [|done]. simpl.
    by rewrite Hd.
Qed.

Lemma update_progress_eq (N : Z) s :
  N ≠ 0 →
  update_progress N s =
    (fire_progress (percent_complete N (Z.of_nat (size (_dirty_blocks s)))) s,
     Ok tt).
Proof.
  intros HN. unfold update_progress, bind, get, modify.
  by rewrite bool_decide_eq_false_2.
Qed.

(** One request of the pool: the recompute, then the progress
    callback if the recompute returned. *)
Lemma request_eq inp (N : Z) b s :
  N ≠ 0 →
  bind (update_block inp b) (λ _, update_progress N) s =
    if bool_decide (b ∈ _dirty_blocks s) then
      match recomp inp (_blockshape s) b with
      | Ok m =>
          (fire_progress
             (percent_complete N (Z.of_nat (size (_dirty_blocks s ∖ {[b]}))))
             (installed b m s), Ok tt)
      | Raise e => (locked b s, Raise e)
      end
    else
      (fire_progress
         (percent_complete N (Z.of_nat (size (_dirty_blocks s)))) (locked b s),
       Ok tt).
Proof.
  intros HN. unfold bind at 1. rewrite update_block_eq.
  destruct (bool_decide (b ∈ _dirty_blocks s)).
  - destruct (recomp inp (_blockshape s) b); [|done].
    by rewrite update_progress_eq.
  - by rewrite update_progress_eq.
Qed.

Lemma pool_run_cons inp (N : Z) b l s :
  pool_run (requests to_float getBlockBounds inp N (b :: l)) s =
    let '(s1, r) := bind (update_block inp b) (λ _, update_progress N) s in
    let '(s2, failure) :=
      pool_run (requests to_float getBlockBounds inp N l) s1 in
    (s2, match r with Raise e => Some e | Ok _ => failure end).
Proof. reflexivity. Qed.

(** *** The pool of one [execute] *)

Lemma pool_run_spec inp (N : Z) l s s' failure :
  N ≠ 0 →
  pool_run (requests to_float getBlockBounds inp N l) s = (s', failure) →
  _blockshape s' = _blockshape s
  ∧ LabelAndFeatureMatrix_dirty s' = LabelAndFeatureMatrix_dirty s
  ∧ _dirty_blocks s' ⊆ _dirty_blocks s
  ∧ (∀ b, b ∈ _dirty_blocks s → b ∉ l → b ∈ _dirty_blocks s')
  ∧ (failure = None → ∀ b, b ∈ l → b ∉ _dirty_blocks s')
  ∧ (∀ b, b ∉ _dirty_blocks s ∨ b ∈ _dirty_blocks s' →
          matrices s' !! b = matrices s !! b)
  ∧ (∀ b, b ∈ _dirty_blocks s → b ∉ _dirty_blocks s' →
          ∃ m, recomp inp (_blockshape s) b = Ok m
               ∧ matrices s' !! b = Some m).
Proof.
  intros HN. revert s s' failure.
  induction l as [|a l IH]; intros s s' failure Hrun.
  - simpl in Hrun. injection Hrun as <- <-.
    split_and!; try done. intros _ b Hb. by apply elem_of_nil in Hb.
  - rewrite pool_run_cons, request_eq in Hrun by done.
    destruct (bool_decide (a ∈ _dirty_blocks s)) eqn:Ha.
    + apply bool_decide_eq_true in Ha.
      destruct (recomp inp (_blockshape s) a) as [m|e] eqn:Hm.
      * destruct (pool_run _ _) as [s2 f2] eqn:Hrest.
        injection Hrun as <- <-.
        apply IH in Hrest as (Hbs & Hod & Hsub & Hkeep & Hnone & Hsame & Hnew).
        simpl in *.
        split_and!; try done.
        -- set_solver.
        -- intros b Hb Hnb. apply not_elem_of_cons in Hnb as [Hne Hnl].
           apply Hkeep; [set_solver | done].
        -- intros Hf b Hb. apply elem_of_cons in Hb as [->|Hb].
           ++ intros Hin. apply Hsub in Hin. set_solver.
           ++ by apply Hnone.
        -- intros b Hb. rewrite Hsame.
           ++ apply lookup_insert_ne. intros ->.
              destruct Hb as [Hb|Hb]; [done|]. apply Hsub in Hb. set_solver.
           ++ destruct Hb as [Hb|Hb]; [left; set_solver | by right].
        -- intros b Hb Hnb. destruct (decide (b = a)) as [->|Hne].
           ++ exists m. split; [done|]. rewrite Hsame.
              ** apply lookup_insert_eq.
              ** left. set_solver.
           ++ destruct (Hnew b) as (m' & Hm' & Hl); [set_solver | done |].
              exists m'. split; [done|done].
      * destruct (pool_run _ _) as [s2 f2] eqn:Hrest.
        injection Hrun as <- <-.
        apply IH in Hrest as (Hbs & Hod & Hsub & Hkeep & Hnone & Hsame & Hnew).
        simpl in *.
        split_and!; try done.
        -- intros b Hb Hnb. apply not_elem_of_cons in Hnb as [Hne Hnl].
           by apply Hkeep.
    + apply bool_decide_eq_false in Ha.
      destruct (pool_run _ _) as [s2 f2] eqn:Hrest.
      injection Hrun as <- <-.
      apply IH in Hrest as (Hbs & Hod & Hsub & Hkeep & Hnone & Hsame & Hnew).
      simpl in *.
      split_and!; try done.
      * intros b Hb Hnb. apply not_elem_of_cons in Hnb as [Hne Hnl].
        by apply Hkeep.
      * intros Hf b Hb. apply elem_of_cons in Hb as [->|Hb].
        -- intros Hin. by apply Hsub in Hin.
        -- by apply Hnone.
Qed.

Lemma pool_run_all_ok inp (N : Z) l s :
  N ≠ 0 →
  (∀ b, b ∈ l → is_ok (recomp inp (_blockshape s) b) = true) →
  snd (pool_run (requests to_float getBlockBounds inp N l) s) = None.
Proof.
  intros HN. revert s. induction l as [|a l IH]; intros s Hok; [done|].
  rewrite pool_run_cons, request_eq by done.
  assert (Ha : is_ok (recomp inp (_blockshape s) a) = true)
    by (apply Hok; left).
  assert (Hl : ∀ b, b ∈ l → is_ok (recomp inp (_blockshape s) b) = true)
    by (intros b Hb; apply Hok; by right).
  destruct (bool_decide (a ∈ _dirty_blocks s)).
  - destruct (recomp inp (_blockshape s) a) as [m|e]; [|done].
    specialize (IH (fire_progress
      (percent_complete N (Z.of_nat (size (_dirty_blocks s ∖ {[a]}))))
      (installed a m s)) Hl).
    destruct (pool_run _ _) as [s2 f2]. by simpl in *.
  - specialize (IH (fire_progress
      (percent_complete N (Z.of_nat (size (_dirty_blocks s))))
      (locked a s)) Hl).
    destruct (pool_run _ _) as [s2 f2]. by simpl in *.
Qed.

(** The progress values of the pool: one per recompute that returned,
    each computed from the dirty blocks left at that moment. *)
Lemma pool_run_events inp (N : Z) l s s' failure :
  N ≠ 0 →
  NoDup l →
  (∀ b, b ∈ l → b ∈ _dirty_blocks s) →
  pool_run (requests to_float getBlockBounds inp N l) s = (s', failure) →
  ∃ m : nat,
    (m ≤ length l)%nat
    ∧ (size (_dirty_blocks s') + m = size (_dirty_blocks s))%nat
    ∧ progressSignal s' =
        progressSignal s
        ++ map (λ k : nat,
                  percent_complete N (Z.of_nat (size (_dirty_blocks s) - k)))
               (seq 1 m)
    ∧ (failure = None → m = length l).
Proof.
  intros HN. revert s s' failure.
  induction l as [|a l IH]; intros s s' failure Hnd Hin Hrun.
  - simpl in Hrun. injection Hrun as <- <-. exists 0%nat.
    simpl. rewrite app_nil_r. split_and!; [lia|lia|done|done].
  - apply NoDup_cons in Hnd as [Hna Hnd].
    assert (Ha : a ∈ _dirty_blocks s) by (apply Hin; left).
    rewrite pool_run_cons, request_eq in Hrun by done.
    rewrite bool_decide_eq_true_2 in Hrun by done.
    destruct (recomp inp (_blockshape s) a) as [m|e].
    + destruct (pool_run _ _) as [s2 f2] eqn:Hrest.
      injection Hrun as <- <-.
      assert (Hsz : (size (_dirty_blocks s ∖ {[a]}) + 1 = size (_dirty_blocks s))%nat).
      { rewrite size_difference by set_solver. rewrite size_singleton.
        assert (size (_dirty_blocks s) ≠ 0)%nat; [|lia].
        intros H0. apply size_empty_inv in H0. set_solver. }
      apply IH in Hrest as (k & Hk & Hsize & Hev & Hall); [|done|].
      * simpl in *. exists (S k). split_and!; [lia|lia| |intros Hf; specialize (Hall Hf); lia].
        rewrite Hev. rewrite <- app_assoc. f_equal. simpl. f_equal.
        -- do 2 f_equal. lia.
        -- rewrite <- (seq_shift k 1), map_map. apply map_ext. intros j.
           do 2 f_equal. lia.
      * simpl. intros b Hb. apply elem_of_difference. split; [apply Hin; by right|].
        intros Heq%elem_of_singleton. by subst.
    + destruct (pool_run _ _) as [s2 f2] eqn:Hrest.
      injection Hrun as <- <-.
      apply IH in Hrest as (k & Hk & Hsize & Hev & Hall); [|done|].
      * simpl in *. exists k. split_and!; [lia|lia|done|done].
      * simpl. intros b Hb. apply Hin. by right.
Qed.

(** *** [execute], step by step *)

Lemma execute_eq inp s :
  exec inp Slot_LabelAndFeatureMatrix s =
    let N := Z.of_nat (size (_dirty_blocks s)) in
    let '(s1, failure) :=
      pool_run (requests to_float getBlockBounds inp N
                         (elements (_dirty_blocks s)))
               (fire_progress 0%Q s) in
    match failure with
    | Some e => (s1, Raise e)
    | None =>
        if bool_decide (matrices s1 = ∅)
        then (fire_progress 100%Q s1, Ok (empty_ndarray [0; 0]))
        else match concatenate_axis0 (map snd (map_to_list (matrices s1))) with
             | Ok total => (fire_progress 100%Q s1, Ok total)
             | Raise e => (s1, Raise e)
             end
    end.
Proof.
  unfold execute, bind, py_assert, pool_wait, get, modify, ret, lift, requests.
  simpl.
  destruct (pool_run _ _) as [s1 [e|]]; [done|].
  destruct (bool_decide (matrices s1 = ∅)); [done|].
  by destruct (concatenate_axis0 _).
Qed.

Lemma size_dirty_nonzero s :
  elements (_dirty_blocks s) ≠ [] → Z.of_nat (size (_dirty_blocks s)) ≠ 0.
Proof.
  intros Hne Hz. apply Hne.
  assert (H0 : size (_dirty_blocks s) = 0%nat) by lia.
  apply size_empty_inv in H0. apply leibniz_equiv in H0. rewrite H0.
  apply elements_empty.
Qed.

Lemma execute_pool_spec inp s s1 failure :
  pool_run (requests to_float getBlockBounds inp
                     (Z.of_nat (size (_dirty_blocks s)))
                     (elements (_dirty_blocks s)))
           (fire_progress 0%Q s) = (s1, failure) →
  _blockshape s1 = _blockshape s
  ∧ LabelAndFeatureMatrix_dirty s1 = LabelAndFeatureMatrix_dirty s
  ∧ _dirty_blocks s1 ⊆ _dirty_blocks s
  ∧ (failure = None → _dirty_blocks s1 = ∅)
  ∧ (∀ b, b ∉ _dirty_blocks s ∨ b ∈ _dirty_blocks s1 →
          matrices s1 !! b = matrices s !! b)
  ∧ (∀ b, b ∈ _dirty_blocks s → b ∉ _dirty_blocks s1 →
          ∃ m, recomp inp (_blockshape s) b = Ok m
               ∧ matrices s1 !! b = Some m).
Proof.
  intros Hrun.
  destruct (decide (elements (_dirty_blocks s) = [])) as [Hnil|Hne].
  - rewrite Hnil in Hrun. simpl in Hrun. injection Hrun as <- <-. simpl.
    apply elements_empty_inv in Hnil. apply leibniz_equiv in Hnil.
    split_and!; done.
  - apply size_dirty_nonzero in Hne.
    apply pool_run_spec in Hrun
      as (Hbs & Hod & Hsub & Hkeep & Hnone & Hsame & Hnew); [|done].
    simpl in *. split_and!; try done.
    intros Hf. apply leibniz_equiv. intros b. split; [|set_solver].
    intros Hb. exfalso. apply (Hnone Hf b); [|done].
    apply elem_of_elements. by apply Hsub.
Qed.

Lemma execute_pool_events inp s s1 failure :
  pool_run (requests to_float getBlockBounds inp
                     (Z.of_nat (size (_dirty_blocks s)))
                     (elements (_dirty_blocks s)))
           (fire_progress 0%Q s) = (s1, failure) →
  ∃ m : nat,
    (m ≤ size (_dirty_blocks s))%nat
    ∧ progressSignal s1 =
        progressSignal s
        ++ 0%Q :: map (λ k : nat,
                         (95 * inject_Z (Z.of_nat k)
                          / inject_Z (Z.of_nat (size (_dirty_blocks s))))%Q)
                      (seq 1 m)
    ∧ (failure = None → m = size (_dirty_blocks s)).
Proof.
  intros Hrun.
  destruct (decide (elements (_dirty_blocks s) = [])) as [Hnil|Hne].
  - rewrite Hnil in Hrun. simpl in Hrun. injection Hrun as <- <-.
    exists 0%nat. simpl. split_and!; [lia|done|].
    intros _. unfold size, set_size. simpl. by rewrite Hnil.
  - apply size_dirty_nonzero in Hne.
    apply pool_run_events in Hrun as (m & Hm & Hsize & Hev & Hall);
      [|done|apply NoDup_elements|by intros b Hb%elem_of_elements].
    simpl in *. exists m. split_and!.
    + unfold size, set_size. simpl. done.
    + rewrite Hev, <- app_assoc. simpl. do 2 f_equal.
      apply map_ext_in. intros k Hk%in_seq. unfold percent_complete.
      do 3 f_equal. lia.
    + done.
Qed.

(** *** Reading a cache that holds nothing *)

(** C2, what the code does: read before any block was ever marked
    dirty, the operator returns an array of shape (0, 0), whatever the
    number of feature channels; its column count is 0, not 1+K. *)
Theorem execute_fresh_cache_shape inp :
  exec inp Slot_LabelAndFeatureMatrix init =
    (fire_progress 100%Q (fire_progress 0%Q init),
     Ok (mk_ndarray [0; 0] [])).
Proof. reflexivity. Qed.

(** Whenever a read returns with no matrix in the cache, what it
    returns has shape (0, 0). *)
Lemma execute_empty_store_shape inp s s' (m : ndarray V) :
  exec inp Slot_LabelAndFeatureMatrix s = (s', Ok m) →
  matrices s' = ∅ →
  m = mk_ndarray [0; 0] [].
Proof.
  intros Hrun Hempty. rewrite execute_eq in Hrun. simpl in Hrun.
  destruct (pool_run _ _) as [s1 [e|]]; [done|].
  destruct (bool_decide (matrices s1 = ∅)) eqn:Hdec.
  - by injection Hrun as <- <-.
  - apply bool_decide_eq_false in Hdec.
    destruct (concatenate_axis0 _); [|done].
    injection Hrun as <- <-. by destruct Hdec.
Qed.

(** *** The bounding box is relative to the block *)

(** The matrix of a block depends on where the block lies only through
    the label sub-array fetched for it: two blocks with the same labels
    get the same feature rows, wherever they are. *)
Lemma extract_blind_to_block_position inp (roi1 roi2 : list Z * list Z) :
  request (LabelImage inp) (fst roi1) (snd roi1)
  = request (LabelImage inp) (fst roi2) (snd roi2) →
  extract inp roi1 = extract inp roi2.
Proof. unfold _extract_feature_matrix. by intros ->. Qed.

(** *** A recompute that fails *)

Lemma fetch_raises_extract inp label_roi e :
  fetch_raises inp label_roi e → extract inp label_roi = Raise e.
Proof.
  intros [K HK Hl | K labels labels0 picked c0 cols box maxes
                    HK Hl H0 Hp Hnz Hc0 Hmin Hmax Hf];
    unfold _extract_feature_matrix; rewrite HK, Hl; simpl; [done|].
  rewrite H0. simpl. rewrite Hp. simpl. rewrite Hnz.
  rewrite bool_decide_eq_false_2 by (by destruct c0).
  rewrite <- Hnz, Hmin. simpl. rewrite Hmax. simpl. by rewrite Hf.
Qed.

(** C3: when the fetch of the label sub-array of a dirty block, or the
    fetch of the feature sub-array of its labeled points, raises, the
    recompute of the block raises that same error, the cached matrices
    are what they were (nothing is installed for the block), and the
    dirty blocks are what they were: the block is still dirty. *)
Theorem update_block_fetch_error inp b s bs block_roi e :
  b ∈ _dirty_blocks s →
  _blockshape s = Some bs →
  getBlockBounds (meta_shape (meta (LabelImage inp))) bs b = Ok block_roi →
  fetch_raises inp block_roi e →
  ∃ s', update_block inp b s = (s', Raise e)
        ∧ matrices s' = matrices s
        ∧ _dirty_blocks s' = _dirty_blocks s
        ∧ b ∈ _dirty_blocks s'.
Proof.
  intros Hb Hbs Hroi Hfetch. rewrite update_block_eq.
  rewrite bool_decide_eq_true_2 by done.
  unfold recompute. rewrite Hbs, Hroi. simpl.
  rewrite (fetch_raises_extract _ _ _ Hfetch).
  eexists. split; [reflexivity|]. by simpl.
Qed.

(** *** Reading twice *)

(** C4: when a read has returned a matrix, no block is dirty any more;
    a second read with nothing marked dirty in between puts no request
    in its pool, a recompute of any block would return without touching
    the cached matrices, and the second read returns the very same
    matrix, built from the same cached matrices in the same order, even
    if the input feeds have changed meanwhile. *)
Theorem execute_twice_same_matrix inp inp' s s1 (m : ndarray V) :
  exec inp Slot_LabelAndFeatureMatrix s = (s1, Ok m) →
  _dirty_blocks s1 = ∅
  ∧ requests to_float getBlockBounds inp'
      (Z.of_nat (size (_dirty_blocks s1))) (elements (_dirty_blocks s1)) = []
  ∧ (∀ b, update_block inp' b s1 = (locked b s1, Ok tt))
  ∧ exec inp' Slot_LabelAndFeatureMatrix s1
    = (fire_progress 100%Q (fire_progress 0%Q s1), Ok m)
  ∧ map_to_list (matrices (fire_progress 100%Q (fire_progress 0%Q s1)))
    = map_to_list (matrices s1).
Proof.
  intros Hrun. rewrite execute_eq in Hrun. simpl in Hrun.
  destruct (pool_run _ _) as [sb [e|]] eqn:Hpool; [done|].
  apply execute_pool_spec in Hpool as (_ & _ & _ & Hclean & _).
  specialize (Hclean eq_refl).
  assert (Hs1 : s1 = fire_progress 100%Q sb
                ∧ (if bool_decide (matrices sb = ∅)
                   then Ok (empty_ndarray [0; 0])
                   else concatenate_axis0 (map snd (map_to_list (matrices sb))))
                  = Ok m).
  { destruct (bool_decide (matrices sb = ∅)).
    - by injection Hrun as <- <-.
    - destruct (concatenate_axis0 _); [|done]. by injection Hrun as <- <-. }
  destruct Hs1 as [-> Hm].
  assert (Hd : _dirty_blocks (fire_progress 100%Q sb) = ∅) by done.
  split_and!; try done.
  - by rewrite Hd.
  - intros b. rewrite update_block_eq. rewrite bool_decide_eq_false_2; [done|].
    rewrite Hd. set_solver.
  - rewrite execute_eq, Hd, elements_empty. simpl.
    destruct (bool_decide (matrices sb = ∅)).
    + by injection Hm as <-.
    + by rewrite Hm.
Qed.

(** *** Progress *)

Lemma percent_below_100 (k n : nat) :
  (k ≤ n)%nat →
  (95 * inject_Z (Z.of_nat k) / inject_Z (Z.of_nat n) < 100)%Q.
Proof.
  intros Hk. destruct n as [|n].
  - assert (k = 0%nat) as -> by lia. reflexivity.
  - apply Qlt_shift_div_r.
    + unfold Qlt. simpl. lia.
    + unfold Qlt, Qmult, inject_Z. simpl Qnum. simpl Qden. lia.
Qed.

(** C7, as the code has it.  With N the number of blocks dirty at the
    start of the read, the callback of a recompute reports
    95*(N - r)/N, where r is the number of blocks that are dirty when
    the callback runs: it counts the dirty blocks then, not the
    recomputes done.  When the recomputes of the pool run one after
    another, each followed by its callback before the next one starts
    (the schedule of [pool_run]), a read first reports 0, then 95*k/N
    after the k-th recompute that returned (k = 1, 2, ...), and 100
    last, after the concatenation, if it returns; every value before
    that last one is below 100.  A read that returns reports all of
    95*1/N ... 95*N/N.  With N = 0 the values reported are the 0 of the
    start and, if the read returns, the 100 of the end. *)
Theorem execute_progress inp s :
  let N := size (_dirty_blocks s) in
  let s' := fst (exec inp Slot_LabelAndFeatureMatrix s) in
  let r := snd (exec inp Slot_LabelAndFeatureMatrix s) in
  (∀ s0 : cache V,
     N ≠ 0%nat →
     update_progress (Z.of_nat N) s0
     = (fire_progress
          (95 * inject_Z (Z.of_nat N - Z.of_nat (size (_dirty_blocks s0)))
           / inject_Z (Z.of_nat N))%Q s0,
        Ok tt))
  ∧ ∃ m : nat,
    (m ≤ N)%nat
    ∧ progressSignal s' =
        progressSignal s
        ++ (0%Q :: map (λ k : nat,
                          (95 * inject_Z (Z.of_nat k)
                           / inject_Z (Z.of_nat N))%Q) (seq 1 m))
        ++ (if is_ok r then [100%Q] else [])
    ∧ Forall (λ q, (q < 100)%Q)
             (0%Q :: map (λ k : nat,
                            (95 * inject_Z (Z.of_nat k)
                             / inject_Z (Z.of_nat N))%Q) (seq 1 m))
    ∧ (is_ok r = true → m = N)
    ∧ (N = 0%nat →
       progressSignal s' =
         progressSignal s ++ 0%Q :: (if is_ok r then [100%Q] else [])).
Proof.
  intros N s' r. split.
  { intros s0 HN. apply update_progress_eq. lia. }
  subst s' r. rewrite execute_eq. simpl. fold N.
  destruct (pool_run _ _) as [s1 failure] eqn:Hpool.
  apply execute_pool_events in Hpool as (m & Hm & Hev & Hall). fold N in Hm, Hev, Hall.
  exists m.
  assert (Hlt : Forall (λ q, (q < 100)%Q)
             (0%Q :: map (λ k : nat,
                            (95 * inject_Z (Z.of_nat k)
                             / inject_Z (Z.of_nat N))%Q) (seq 1 m))).
  { constructor; [reflexivity|]. apply Forall_map, Forall_forall.
    intros k Hk%list_elem_of_In%in_seq. apply percent_below_100. lia. }
  assert (H0 : N = 0%nat → m = 0%nat) by lia.
  destruct failure as [e|]; simpl.
  - split_and!; [done| |done|done|].
    + rewrite Hev. by rewrite app_nil_r.
    + intros HN. rewrite Hev, (H0 HN). done.
  - assert (Hfin : ∀ t : cache V * result (ndarray V),
              t = (if bool_decide (matrices s1 = ∅)
                   then (fire_progress 100%Q s1, Ok (empty_ndarray [0; 0]))
                   else match concatenate_axis0
                                (map snd (map_to_list (matrices s1))) with
                        | Ok total => (fire_progress 100%Q s1, Ok total)
                        | Raise e => (s1, Raise e)
                        end) →
              progressSignal (fst t)
              = progressSignal s1 ++ (if is_ok (snd t) then [100%Q] else [])).
    { intros t ->. destruct (bool_decide (matrices s1 = ∅)); [done|].
      destruct (concatenate_axis0 _); simpl; [done|by rewrite app_nil_r]. }
    rewrite (Hfin _ eq_refl), Hev.
    split_and!; [done| |done|by intros _; apply Hall|].
    + by rewrite <- app_assoc.
    + intros HN. rewrite (H0 HN). simpl. by rewrite <- app_assoc.
Qed.

(** *** Blocks without labels *)

Lemma getitem_last_zeros (a : ndarray Z) :
  last (shape a) = Some 1 →
  Forall (λ x, x = 0) (flat a) →
  ∃ a0, getitem_last a 0 = Ok a0
        ∧ shape a0 = removelast (shape a)
        ∧ Forall (λ x, x = 0) (flat a0).
Proof.
  intros Hlast Hz. unfold getitem_last. rewrite Hlast. simpl.
  eexists. split_and!; [reflexivity|done|]. simpl.
  apply Forall_forall. intros x Hx.
  apply list_elem_of_omap in Hx as (j & _ & Hj).
  apply list_elem_of_lookup_2 in Hj.
  by apply (proj1 (Forall_forall _ _) Hz).
Qed.

Lemma nonzero_zeros (a : ndarray Z) :
  Forall (λ x, x = 0) (flat a) →
  nonzero a = replicate (Nat.max 1 (length (shape a))) [].
Proof.
  intros Hz. unfold nonzero.
  set (sh := match shape a with [] => [1] | _ => shape a end).
  assert (Hlen : length sh = Nat.max 1 (length (shape a))).
  { subst sh. destruct (shape a) as [|d [|d' sh']]; simpl; lia. }
  assert (Hnil : filter (λ p : list Z * Z, snd p ≠ 0) (zip (ndindex sh) (flat a)) = []).
  { generalize (ndindex sh). induction Hz as [|x fl Hx _ IH]; intros idx.
    - by destruct idx.
    - destruct idx as [|i idx]; [done|]. simpl.
      rewrite filter_cons_False by (simpl; intros H; by apply H). apply IH. }
  rewrite Hnil, <- Hlen. simpl. clear. generalize 0%nat.
  induction (length sh) as [|n IH]; intros k; [done|].
  simpl. f_equal. apply IH.
Qed.

Lemma getitem_arrays_no_rows {A} (a : ndarray A) (n : nat) :
  (S n ≤ length (shape a))%nat →
  getitem_arrays a (replicate (S n) []) =
    Ok (mk_ndarray (0 :: drop (S n) (shape a)) []).
Proof.
  intros Hn. unfold getitem_arrays. simpl replicate at 1.
  rewrite length_replicate.
  rewrite bool_decide_eq_false_2 by lia.
  assert (Hall : forallb (λ c : list Z, bool_decide (length c = length (@nil Z)))
                   ([] :: replicate n []) = true).
  { apply forallb_forall. intros c Hc. apply bool_decide_eq_true.
    destruct Hc as [<-|Hc]; [done|].
    apply list_elem_of_In, elem_of_replicate in Hc as [-> _]. done. }
  simpl in Hall. simpl. rewrite Hall. simpl. done.
Qed.

(** A block whose label sub-array holds no labeled point gets the
    empty matrix of 1+K columns. *)
Lemma extract_no_labels inp (label_roi : list Z * list Z) (labels : ndarray Z) K :
  getitem_m1 (meta_shape (meta (FeatureImage inp))) = Ok K →
  request (LabelImage inp) (fst label_roi) (snd label_roi) = Ok labels →
  last (shape labels) = Some 1 →
  Forall (λ x, x = 0) (flat labels) →
  extract inp label_roi = Ok (empty_ndarray [0; 1 + K]).
Proof.
  intros HK Hreq Hlast Hz. unfold _extract_feature_matrix.
  rewrite HK, Hreq. simpl.
  destruct (getitem_last_zeros labels Hlast Hz) as (a0 & -> & Hsh & Hz0). simpl.
  rewrite (nonzero_zeros a0 Hz0), Hsh.
  assert (Hrank : ∃ n, Nat.max 1 (length (removelast (shape labels))) = S n
                       ∧ (S n ≤ length (shape labels))%nat).
  { destruct (shape labels) as [|d sh] eqn:Hs; [done|].
    exists (Nat.max 1 (length (removelast (d :: sh))) - 1)%nat.
    assert (Hrl : length (removelast (d :: sh)) = length sh).
    { rewrite removelast_firstn_len, length_firstn. simpl. lia. }
    rewrite Hrl. change (length (d :: sh)) with (S (length sh)). lia. }
  destruct Hrank as (n & -> & Hn).
  rewrite (getitem_arrays_no_rows labels n Hn). simpl. done.
Qed.

Lemma recompute_no_labels inp bs K b :
  getitem_m1 (meta_shape (meta (FeatureImage inp))) = Ok K →
  no_labels_in getBlockBounds inp bs b →
  recomp inp (Some bs) b = Ok (empty_ndarray [0; 1 + K]).
Proof.
  intros HK (block_roi & labels & Hroi & Hreq & Hlast & Hz).
  unfold recompute. rewrite Hroi. simpl.
  by apply (extract_no_labels inp block_roi labels K).
Qed.

Lemma concatenate_axis0_empties {A} (l : list (ndarray A)) (c : Z) :
  l ≠ [] →
  Forall (λ a, a = empty_ndarray [0; c]) l →
  concatenate_axis0 l = Ok (empty_ndarray [0; c]).
Proof.
  intros Hne Hall.
  assert (Hrep : l = replicate (length l) (empty_ndarray [0; c])).
  { clear Hne. induction Hall as [|x l' Hx _ IH]; [done|].
    subst x. simpl. by f_equal. }
  destruct (length l) as [|n] eqn:Hn; [by destruct l|].
  rewrite Hrep. clear. unfold concatenate_axis0. simpl.
  assert (Hcols : ∀ k,
    forallb (λ b : ndarray A, match shape b with
                              | [] => false
                              | _ :: tlb => bool_decide (tlb = [c])
                              end)
            (replicate k (empty_ndarray [0; c])) = true).
  { induction k as [|k IH]; [done|]. simpl. rewrite IH.
    by rewrite bool_decide_eq_true_2. }
  assert (Hrows : ∀ k,
    foldr Z.add 0 (map (λ b : ndarray A, default 0 (head (shape b)))
                       (replicate k (empty_ndarray [0; c]))) = 0).
  { induction k as [|k IH]; [done|]. simpl. by rewrite IH. }
  assert (Hflat : ∀ k,
    concat (map flat (replicate k (@empty_ndarray A [0; c]))) = []).
  { induction k as [|k IH]; [done|]. simpl. by rewrite IH. }
  rewrite bool_decide_eq_true_2 by done. simpl.
  by rewrite Hcols, Hrows, Hflat.
Qed.

(** C5: a dirty block whose fetched label sub-array holds no labeled
    point is recomputed without an error: the matrix installed for it
    has 0 rows and 1+K columns and the block is no longer dirty.  So a
    read with at least one dirty block, every cached block among the
    dirty ones and no labeled point in any of them, returns a matrix of
    0 rows and 1+K columns. *)
Theorem no_labels_empty_matrix inp s bs K :
  _blockshape s = Some bs →
  getitem_m1 (meta_shape (meta (FeatureImage inp))) = Ok K →
  (∀ b, b ∈ _dirty_blocks s →
        no_labels_in getBlockBounds inp bs b →
        ∃ s', update_block inp b s = (s', Ok tt)
              ∧ matrices s' = <[b := mk_ndarray [0; 1 + K] []]> (matrices s)
              ∧ _dirty_blocks s' = _dirty_blocks s ∖ {[b]})
  ∧ (_dirty_blocks s ≠ ∅ →
     dom (matrices s) ⊆ _dirty_blocks s →
     (∀ b, b ∈ _dirty_blocks s → no_labels_in getBlockBounds inp bs b) →
     ∃ s', exec inp Slot_LabelAndFeatureMatrix s
           = (s', Ok (mk_ndarray [0; 1 + K] []))
           ∧ _dirty_blocks s' = ∅).
Proof.
  intros Hbs HK. split.
  - intros b Hb Hno. rewrite update_block_eq.
    rewrite bool_decide_eq_true_2 by done.
    rewrite Hbs, (recompute_no_labels inp bs K b HK Hno).
    eexists. split; [reflexivity|]. by simpl.
  - intros Hne Hdom Hall. rewrite execute_eq. simpl.
    assert (Hel : elements (_dirty_blocks s) ≠ []).
    { intros Hnil%elements_empty_inv. apply Hne. by apply leibniz_equiv. }
    pose proof (pool_run_all_ok inp (Z.of_nat (size (_dirty_blocks s)))
                  (elements (_dirty_blocks s)) (fire_progress 0%Q s)
                  (size_dirty_nonzero s Hel)) as Hok.
    destruct (pool_run _ _) as [s1 failure] eqn:Hpool.
    simpl in Hok.
    assert (failure = None) as ->.
    { apply Hok. intros b Hb%elem_of_elements. rewrite Hbs.
      by rewrite (recompute_no_labels inp bs K b HK (Hall b Hb)). }
    clear Hok.
    apply execute_pool_spec in Hpool as (_ & _ & _ & Hclean & Hsame & Hnew).
    specialize (Hclean eq_refl).
    assert (Hlook : ∀ b, matrices s1 !! b =
                         if bool_decide (b ∈ _dirty_blocks s)
                         then Some (empty_ndarray [0; 1 + K]) else None).
    { intros b. case_bool_decide as Hb.
      - destruct (Hnew b Hb) as (m & Hm & ->); [set_solver|].
        rewrite Hbs, (recompute_no_labels inp bs K b HK (Hall b Hb)) in Hm.
        by injection Hm as <-.
      - rewrite Hsame by (by left). apply not_elem_of_dom. set_solver. }
    apply set_choose_L in Hne as [b0 Hb0].
    rewrite bool_decide_eq_false_2.
    2:{ intros Hempty. specialize (Hlook b0).
        rewrite Hempty, lookup_empty, bool_decide_eq_true_2 in Hlook; done. }
    rewrite (concatenate_axis0_empties _ (1 + K)).
    + eexists. split; [reflexivity|]. done.
    + intros Hnil%(f_equal length). rewrite length_map in Hnil.
      apply nil_length_inv, map_to_list_empty_iff in Hnil.
      specialize (Hlook b0).
      rewrite Hnil, lookup_empty, bool_decide_eq_true_2 in Hlook; done.
    + apply Forall_forall. intros m Hm.
      apply list_elem_of_fmap in Hm as ([b m'] & -> & Hbm).
      apply elem_of_map_to_list in Hbm. rewrite Hlook in Hbm.
      case_bool_decide; [|done]. by injection Hbm as <-.
Qed.

(** *** What a call does to one block *)

(** *** Setup, invalidation and histories of calls *)

Section Calls.
Variable determineBlockShape : list Z → Q → result (list Z).
Variable getIntersectingBlocks : list Z → list Z * list Z → result (list (list Z)).

Local Abbreviation setup := (setupOutputs determineBlockShape).
Local Abbreviation propagate := (propagateDirty getIntersectingBlocks).
Local Abbreviation after_call :=
  (after to_float determineBlockShape getIntersectingBlocks getBlockBounds).
Local Abbreviation after_calls :=
  (after_all to_float determineBlockShape getIntersectingBlocks getBlockBounds).

(** *** Invalidation *)

(** C10: an invalidation that arrives on [NonZeroLabelBlocks] returns
    at once and leaves the whole operator as it was, for every region:
    the dirty blocks, the cached matrices and the dirty notices sent on
    the output are unchanged. *)
Theorem propagateDirty_NonZeroLabelBlocks_noop (roi_ : roi) s :
  propagate Slot_NonZeroLabelBlocks roi_ s = (s, Ok tt)
  ∧ _dirty_blocks (fst (propagate Slot_NonZeroLabelBlocks roi_ s))
    = _dirty_blocks s
  ∧ matrices (fst (propagate Slot_NonZeroLabelBlocks roi_ s)) = matrices s
  ∧ LabelAndFeatureMatrix_dirty (fst (propagate Slot_NonZeroLabelBlocks roi_ s))
    = LabelAndFeatureMatrix_dirty s.
Proof. by unfold propagateDirty. Qed.

(** C9: an invalidation on [FeatureImage] or [LabelImage], whatever its
    region, has its channel extent replaced by [0,1); the blocks
    [getIntersectingBlocks] returns for that region join the dirty
    blocks, none leaves them, the cached matrices stay, and one notice
    is sent downstream that says the entire output is dirty. *)
Theorem propagateDirty_marks_blocks slot_ (roi_ : roi) s bs blocks :
  slot_ = Slot_FeatureImage ∨ slot_ = Slot_LabelImage →
  start roi_ ≠ [] →
  stop roi_ ≠ [] →
  _blockshape s = Some bs →
  getIntersectingBlocks bs (removelast (start roi_) ++ [0],
                            removelast (stop roi_) ++ [1]) = Ok blocks →
  ∃ s', propagate slot_ roi_ s = (s', Ok tt)
        ∧ _dirty_blocks s' = _dirty_blocks s ∪ list_to_set blocks
        ∧ _dirty_blocks s ⊆ _dirty_blocks s'
        ∧ matrices s' = matrices s
        ∧ LabelAndFeatureMatrix_dirty s'
          = LabelAndFeatureMatrix_dirty s ++ [Entire_slot].
Proof.
  intros Hslot Hstart Hstop Hbs Hblocks.
  unfold propagateDirty, bind, py_assert, lift, get, modify, ret, setitem_m1.
  assert (Hnz : bool_decide (slot_ = Slot_NonZeroLabelBlocks) = false)
    by (apply bool_decide_eq_false; destruct Hslot; by subst).
  assert (Hfl : bool_decide (slot_ = Slot_FeatureImage)
                || bool_decide (slot_ = Slot_LabelImage) = true)
    by (destruct Hslot; subst; done).
  rewrite Hnz, Hfl.
  destruct (start roi_) as [|x xs] eqn:Hs; [done|].
  destruct (stop roi_) as [|y ys] eqn:Ht; [done|].
  rewrite Hbs, Hblocks. eexists. split; [reflexivity|]. simpl.
  split_and!; try done. apply union_subseteq_l.
Qed.

(** *** Setup *)

(** C8, as the code has it: with [kf] and [kl] the last axis keys of
    the two inputs and [cl] the last extent of the label shape, setup
    raises an [AssertionError] and leaves the operator untouched, with
    no block shape computed, unless both keys are the channel key,
    [cl] is 1 and the two shapes agree on every axis but the last; when
    only the shapes disagree the error carries both shapes.  When all
    four hold, setup sets the meta data of the outputs and hands the
    label shape and the constant budget to [determineBlockShape]: it
    returns with that block shape stored, or raises what
    [determineBlockShape] raised.  The budget itself is never checked. *)
Theorem setupOutputs_checks inp s kf kl cl :
  last (meta_axiskeys (meta (FeatureImage inp))) = Some kf →
  last (meta_axiskeys (meta (LabelImage inp))) = Some kl →
  last (meta_shape (meta (LabelImage inp))) = Some cl →
  let fshape := meta_shape (meta (FeatureImage inp)) in
  let lshape := meta_shape (meta (LabelImage inp)) in
  let accepted := kf = Key_c ∧ kl = Key_c ∧ cl = 1
                  ∧ all_but_last fshape = all_but_last lshape in
  (¬ accepted →
     ∃ msg, setup inp s = (s, Raise (AssertionError msg))
            ∧ (kf = Key_c → kl = Key_c → cl = 1 →
               msg = ShapesDoNotMatch fshape lshape))
  ∧ (accepted →
       setup inp s =
         match determineBlockShape lshape MAX_BLOCK_PIXELS with
         | Ok blockshape =>
             (set_blockshape blockshape (set_output_metas s), Ok tt)
         | Raise e => (set_output_metas s, Raise e)
         end).
Proof.
  intros Hkf Hkl Hcl fshape lshape accepted.
  unfold setupOutputs, bind, py_assert, lift, modify, ret, raise, getitem_m1.
  rewrite Hkf, Hkl, Hcl. fold fshape lshape.
  split.
  - intros Hno.
    destruct (bool_decide (kf = Key_c)) eqn:H1;
      [|apply bool_decide_eq_false in H1; by eexists].
    destruct (bool_decide (kl = Key_c)) eqn:H2;
      [|apply bool_decide_eq_false in H2; by eexists].
    destruct (bool_decide (cl = 1)) eqn:H3;
      [|apply bool_decide_eq_false in H3; by eexists].
    destruct (bool_decide (all_but_last fshape = all_but_last lshape)) eqn:H4.
    + exfalso. apply Hno. unfold accepted.
      by repeat match goal with
                | H : bool_decide _ = true |- _ => apply bool_decide_eq_true in H
                end.
    + by eexists.
  - intros (-> & -> & -> & Heq).
    rewrite !bool_decide_eq_true_2 by done.
    by destruct (determineBlockShape lshape MAX_BLOCK_PIXELS).
Qed.

(** *** Dirty until installed *)

Lemma setup_frame inp s :
  _dirty_blocks (fst (setup inp s)) = _dirty_blocks s
  ∧ matrices (fst (setup inp s)) = matrices s.
Proof.
  unfold setupOutputs, bind, py_assert, lift, modify, ret, raise.
  repeat match goal with
         | |- context [match ?r with Ok _ => _ | Raise _ => _ end] =>
             destruct r; simpl
         | |- context [if ?c then _ else _] => destruct c; simpl
         end; done.
Qed.

Lemma propagate_frame slot_ (roi_ : roi) s :
  _dirty_blocks s ⊆ _dirty_blocks (fst (propagate slot_ roi_ s))
  ∧ matrices (fst (propagate slot_ roi_ s)) = matrices s.
Proof.
  unfold propagateDirty, bind, py_assert, lift, modify, ret, raise, get.
  repeat match goal with
         | |- context [match ?r with Ok _ => _ | Raise _ => _ end] =>
             destruct r; simpl
         | |- context [match ?r with Some _ => _ | None => _ end] =>
             destruct r; simpl
         | |- context [if ?c then _ else _] => destruct c; simpl
         end; split; try done; set_solver.
Qed.

(** What a call may do to one block [b]: leave it dirty with the
    matrix it had, leave it clean with the matrix it had, or take it
    out of the dirty blocks with the matrix just worked out from the
    inputs of the call. *)
Lemma update_block_effect inp a s b :
  let s' := fst (update_block inp a s) in
  (b ∈ _dirty_blocks s →
   b ∈ _dirty_blocks s'
   ∨ (∃ m, recomp inp (_blockshape s) b = Ok m ∧ matrices s' !! b = Some m))
  ∧ (b ∉ _dirty_blocks s →
     (b ∉ _dirty_blocks s') ∧ matrices s' !! b = matrices s !! b).
Proof.
  simpl. rewrite update_block_eq.
  destruct (bool_decide (a ∈ _dirty_blocks s)) eqn:Ha; simpl.
  - apply bool_decide_eq_true in Ha.
    destruct (recomp inp (_blockshape s) a) as [m|e] eqn:Hm; simpl.
    + split.
      * intros Hb. destruct (decide (b = a)) as [->|Hne].
        -- right. exists m. by rewrite lookup_insert_eq.
        -- left. set_solver.
      * intros Hb. split; [set_solver|].
        apply lookup_insert_ne. by intros ->.
    + split; [by left|done].
  - split; [by left|done].
Qed.

Lemma execute_effect inp slot_ s b :
  let s' := fst (exec inp slot_ s) in
  (b ∈ _dirty_blocks s →
   b ∈ _dirty_blocks s'
   ∨ (∃ m, recomp inp (_blockshape s) b = Ok m ∧ matrices s' !! b = Some m))
  ∧ (b ∉ _dirty_blocks s →
     (b ∉ _dirty_blocks s') ∧ matrices s' !! b = matrices s !! b).
Proof.
  simpl.
  destruct (decide (slot_ = Slot_LabelAndFeatureMatrix)) as [->|Hslot].
  2:{ unfold execute, bind, py_assert, raise.
      rewrite bool_decide_eq_false_2 by done. simpl. split; [by left|done]. }
  rewrite execute_eq. simpl.
  destruct (pool_run _ _) as [s1 failure] eqn:Hpool.
  apply execute_pool_spec in Hpool as (_ & _ & Hsub & _ & Hsame & Hnew).
  assert (Hfin : ∀ t : cache V * result (ndarray V),
            t = match failure with
                | Some e => (s1, Raise e)
                | None =>
                    if bool_decide (matrices s1 = ∅)
                    then (fire_progress 100%Q s1, Ok (empty_ndarray [0; 0]))
                    else match concatenate_axis0
                                 (map snd (map_to_list (matrices s1))) with
                         | Ok total => (fire_progress 100%Q s1, Ok total)
                         | Raise e => (s1, Raise e)
                         end
                end →
            _dirty_blocks (fst t) = _dirty_blocks s1
            ∧ matrices (fst t) = matrices s1).
  { intros t ->. destruct failure; [done|].
    destruct (bool_decide (matrices s1 = ∅)); [done|].
    by destruct (concatenate_axis0 _). }
  destruct (Hfin _ eq_refl) as [-> ->]. split.
  - intros Hb. destruct (decide (b ∈ _dirty_blocks s1)); [by left|right].
    by apply Hnew.
  - intros Hb. split; [set_solver|]. apply Hsame. by left.
Qed.

Lemma after_known c s : known s ⊆ known (after_call c s).
Proof.
  intros b. unfold known. rewrite !elem_of_union, !elem_of_dom.
  destruct c as [inp|slot_ roi_|inp a|inp slot_]; simpl.
  - destruct (setup_frame inp s) as [-> ->]. done.
  - destruct (propagate_frame slot_ roi_ s) as [Hsub ->].
    intros [Hb|Hb]; [left; by apply Hsub|by right].
  - destruct (update_block_effect inp a s b) as [Hd Hc].
    destruct (decide (b ∈ _dirty_blocks s)) as [Hb|Hb].
    + intros _. destruct (Hd Hb) as [?|(m & _ & Hm)]; [by left|right].
      by rewrite Hm.
    + intros [?|Hin]; [done|]. right. by rewrite (proj2 (Hc Hb)).
  - destruct (execute_effect inp slot_ s b) as [Hd Hc].
    destruct (decide (b ∈ _dirty_blocks s)) as [Hb|Hb].
    + intros _. destruct (Hd Hb) as [?|(m & _ & Hm)]; [by left|right].
      by rewrite Hm.
    + intros [?|Hin]; [done|]. right. by rewrite (proj2 (Hc Hb)).
Qed.

Lemma after_all_known cs s : known s ⊆ known (after_calls cs s).
Proof.
  revert s. induction cs as [|c cs IH]; intros s; [done|].
  simpl. etrans; [apply (after_known c)|apply IH].
Qed.

(** C6: no call takes a block out of the dirty blocks except a
    recompute or a read, and then the cache holds for that block the
    matrix that was just worked out from the inputs of that very call.
    So through any history of setups, invalidations, recomputes and
    reads, a block that was dirty at some point is afterwards always
    dirty or has a matrix in the cache.  And the access to a dirty
    block computes: a recompute of a dirty block works its matrix out
    from the inputs of the call, installs it over whatever the cache
    held and returns, or raises what the computation raised and leaves
    the block dirty; a read recomputes every dirty block, so that when
    every computation returns, no block is dirty afterwards and the
    cache holds the new matrix of every block that was dirty; and a
    read that returns a matrix returns the concatenation of a cache in
    which every block that was dirty has its new matrix. *)
Theorem dirty_until_installed :
  (∀ c s b,
     b ∈ _dirty_blocks s →
     b ∉ _dirty_blocks (after_call c s) →
     ∃ inp m,
       (c = Call_update_block inp b ∨ ∃ slot_, c = Call_execute inp slot_)
       ∧ recomp inp (_blockshape s) b = Ok m
       ∧ matrices (after_call c s) !! b = Some m)
  ∧ (∀ cs1 cs2 b,
       b ∈ _dirty_blocks (after_calls cs1 init) →
       b ∈ _dirty_blocks (after_calls (cs1 ++ cs2) init)
       ∨ is_Some (matrices (after_calls (cs1 ++ cs2) init) !! b))
  ∧ (∀ inp s b,
       b ∈ _dirty_blocks s →
       match recomp inp (_blockshape s) b with
       | Ok m =>
           snd (update_block inp b s) = Ok tt
           ∧ (b ∉ _dirty_blocks (fst (update_block inp b s)))
           ∧ matrices (fst (update_block inp b s)) !! b = Some m
       | Raise e =>
           snd (update_block inp b s) = Raise e
           ∧ b ∈ _dirty_blocks (fst (update_block inp b s))
           ∧ matrices (fst (update_block inp b s)) = matrices s
       end)
  ∧ (∀ inp s,
       (∀ b, b ∈ _dirty_blocks s →
             is_ok (recomp inp (_blockshape s) b) = true) →
       _dirty_blocks (fst (exec inp Slot_LabelAndFeatureMatrix s)) = ∅
       ∧ ∀ b, b ∈ _dirty_blocks s →
              ∃ m, recomp inp (_blockshape s) b = Ok m
                   ∧ matrices (fst (exec inp Slot_LabelAndFeatureMatrix s)) !! b
                     = Some m)
  ∧ (∀ inp s s' total,
       exec inp Slot_LabelAndFeatureMatrix s = (s', Ok total) →
       (∀ b, b ∈ _dirty_blocks s →
             ∃ m, recomp inp (_blockshape s) b = Ok m
                  ∧ matrices s' !! b = Some m)
       ∧ (_dirty_blocks s ≠ ∅ →
          concatenate_axis0 (map snd (map_to_list (matrices s'))) = Ok total)).
Proof.
  assert (Hread : ∀ inp s s1 failure,
            pool_run (requests to_float getBlockBounds inp
                               (Z.of_nat (size (_dirty_blocks s)))
                               (elements (_dirty_blocks s)))
                     (fire_progress 0%Q s) = (s1, failure) →
            failure = None →
            _dirty_blocks s1 = ∅
            ∧ ∀ b, b ∈ _dirty_blocks s →
                   ∃ m, recomp inp (_blockshape s) b = Ok m
                        ∧ matrices s1 !! b = Some m).
  { intros inp s s1 failure Hpool Hf.
    apply execute_pool_spec in Hpool as (_ & _ & _ & Hnone & _ & Hnew).
    specialize (Hnone Hf). split; [done|].
    intros b Hb. apply Hnew; [done|]. rewrite Hnone. apply not_elem_of_empty. }
  split_and!.
  - intros c s b Hb Hgone.
    destruct c as [inp|slot_ roi_|inp a|inp slot_]; simpl in *.
    + by rewrite (proj1 (setup_frame inp s)) in Hgone.
    + destruct Hgone. by apply (proj1 (propagate_frame slot_ roi_ s)).
    + destruct (proj1 (update_block_effect inp a s b) Hb) as [?|(m & Hm & Hl)];
        [done|].
      exists inp, m. split_and!; [|done|done]. left. f_equal.
      destruct (decide (a = b)) as [|Hne]; [done|]. exfalso. apply Hgone.
      rewrite update_block_eq.
      destruct (bool_decide (a ∈ _dirty_blocks s)); simpl; [|done].
      destruct (recomp inp (_blockshape s) a); simpl; [|done]. set_solver.
    + destruct (proj1 (execute_effect inp slot_ s b) Hb) as [?|(m & Hm & Hl)];
        [done|].
      exists inp, m. split_and!; [|done|done]. right. by exists slot_.
  - intros cs1 cs2 b Hb.
    unfold after_all. rewrite foldl_app.
    assert (Hk : b ∈ known (after_calls cs2 (after_calls cs1 init))).
    { apply after_all_known. unfold known. set_solver. }
    unfold known in Hk. apply elem_of_union in Hk as [Hk|Hk]; [by left|right].
    by apply elem_of_dom.
  - intros inp s b Hb. rewrite update_block_eq, bool_decide_eq_true_2 by done.
    destruct (recomp inp (_blockshape s) b) as [m|e]; simpl.
    + split_and!; [done| |apply lookup_insert_eq].
      rewrite elem_of_difference, elem_of_singleton. by intros [_ []].
    + done.
  - intros inp s Hok. rewrite execute_eq. cbn zeta.
    destruct (pool_run _ _) as [s1 failure] eqn:Hpool.
    assert (Hf : failure = None).
    { destruct (decide (elements (_dirty_blocks s) = [])) as [Hnil|Hne].
      - rewrite Hnil in Hpool. simpl in Hpool. by injection Hpool as _ <-.
      - apply size_dirty_nonzero in Hne.
        pose proof (pool_run_all_ok inp _ (elements (_dirty_blocks s))
                      (fire_progress 0%Q s) Hne) as Hall.
        rewrite Hpool in Hall. apply Hall.
        intros b Hb%elem_of_elements. by apply Hok. }
    destruct (Hread _ _ _ _ Hpool Hf) as [Hd Hm]. subst failure.
    destruct (bool_decide (matrices s1 = ∅)); [done|].
    by destruct (concatenate_axis0 _).
  - intros inp s s' total Hrun. rewrite execute_eq in Hrun. cbn zeta in Hrun.
    destruct (pool_run _ _) as [s1 failure] eqn:Hpool.
    destruct failure as [e|]; [done|].
    destruct (Hread _ _ _ _ Hpool eq_refl) as [Hd Hm].
    destruct (bool_decide (matrices s1 = ∅)) eqn:Hempty.
    + apply bool_decide_eq_true in Hempty. injection Hrun as <- <-.
      split; [done|]. intros Hne. exfalso. apply Hne.
      apply leibniz_equiv. intros b. split; [|by intros ?%not_elem_of_empty].
      intros Hb. destruct (Hm b Hb) as (m & _ & Hl).
      rewrite Hempty in Hl. by rewrite lookup_empty in Hl.
    + destruct (concatenate_axis0 _) as [t|e] eqn:Hcat; [|done].
      injection Hrun as <- <-. done.
Qed.
End Calls.
End Properties.



(** * The worked examples *)

(** ** A labeled point in the second block *)

(** C1, what the code does: on the line of four pixels cut in two
    blocks, the only labeled point is pixel 3, with label 1 and feature
    30.  The read returns one row, [1, 10]: the label of pixel 3 next to
    the feature of pixel 1.  The bounding box of the labeled points is
    taken inside the label sub-array of the block, which starts at
    pixel 2, and is sent to the feature feed as if the block started at
    pixel 0. *)
Theorem second_block_row_has_features_of_first_block :
  line_labels [3; 0] = 1
  ∧ line_features [3; 0] = 30
  ∧ line_features [1; 0] = 10
  ∧ elements (_dirty_blocks line_dirty) = [[0; 0]; [2; 0]]
  ∧ snd (execute id spec_getBlockBounds line_inputs
                 Slot_LabelAndFeatureMatrix line_dirty)
    = Ok (mk_ndarray [1; 2] [1; 10]).
Proof. by vm_compute. Qed.

(** ** Instances of the theorems *)

Lemma propagateDirty_marks_blocks_line :
  ∃ s', propagateDirty spec_getIntersectingBlocks Slot_LabelImage
          (mk_roi [3; 0] [4; 1]) line_dirty = (s', Ok tt)
        ∧ _dirty_blocks s'
          = _dirty_blocks line_dirty ∪ list_to_set [[2; 0]]
        ∧ _dirty_blocks line_dirty ⊆ _dirty_blocks s'
        ∧ _blockwise_feature_matrices s'
          = _blockwise_feature_matrices line_dirty
        ∧ LabelAndFeatureMatrix_dirty s'
          = LabelAndFeatureMatrix_dirty line_dirty ++ [Entire_slot].
Proof.
  apply (propagateDirty_marks_blocks spec_getIntersectingBlocks
           Slot_LabelImage (mk_roi [3; 0] [4; 1]) line_dirty [2; 1] [[2; 0]]).
  - by right.
  - done.
  - done.
  - reflexivity.
  - reflexivity.
Defined.

Lemma setupOutputs_checks_line :
  setupOutputs blocks_of_two line_inputs init
  = (set_blockshape [2; 1] (set_output_metas init), Ok tt).
Proof.
  apply (proj2 (setupOutputs_checks blocks_of_two line_inputs init
                  Key_c Key_c 1 eq_refl eq_refl eq_refl)).
  by repeat split.
Defined.

Lemma update_block_fetch_error_line :
  ∃ s', _update_block id spec_getBlockBounds line_inputs_no_features
          [2; 0] line_dirty = (s', Raise (UpstreamError 7))
        ∧ _blockwise_feature_matrices s' = _blockwise_feature_matrices line_dirty
        ∧ _dirty_blocks s' = _dirty_blocks line_dirty
        ∧ [2; 0] ∈ _dirty_blocks s'.
Proof.
  apply (update_block_fetch_error id spec_getBlockBounds
           line_inputs_no_features [2; 0] line_dirty [2; 1]
           ([2; 0], [4; 1]) (UpstreamError 7)).
  - by vm_compute.
  - reflexivity.
  - reflexivity.
  - apply (feature_fetch_raises line_inputs_no_features ([2; 0], [4; 1])
             (UpstreamError 7) 1
             (mk_ndarray [2; 1] [0; 1]) (mk_ndarray [2] [0; 1])
             (mk_ndarray [1; 1] [1]) [1] [] [1] [1]);
      first [reflexivity | done].
Defined.

Lemma execute_twice_same_matrix_line :
  execute id spec_getBlockBounds line_inputs Slot_LabelAndFeatureMatrix
    (fst (execute id spec_getBlockBounds line_inputs
                  Slot_LabelAndFeatureMatrix line_dirty))
  = (fire_progress 100%Q
       (fire_progress 0%Q
          (fst (execute id spec_getBlockBounds line_inputs
                        Slot_LabelAndFeatureMatrix line_dirty))),
     Ok (mk_ndarray [1; 2] [1; 10])).
Proof.
  apply (execute_twice_same_matrix id spec_getBlockBounds
           line_inputs line_inputs line_dirty).
  by vm_compute.
Defined.

Lemma no_labels_empty_matrix_volume :
  ∃ s', execute id spec_getBlockBounds volume_inputs
          Slot_LabelAndFeatureMatrix volume_dirty
        = (s', Ok (mk_ndarray [0; 1 + 2] []))
        ∧ _dirty_blocks s' = ∅.
Proof.
  assert (Hd : _dirty_blocks volume_dirty = {[ [0; 0; 0; 0] ]})
    by (by vm_compute).
  apply (proj2 (no_labels_empty_matrix id spec_getBlockBounds volume_inputs
                  volume_dirty [10; 10; 10; 1] 2 eq_refl eq_refl)).
  - rewrite Hd. intros Hempty. by vm_compute in Hempty.
  - intros b Hb. by vm_compute in Hb.
  - intros b Hb. rewrite Hd in Hb. apply elem_of_singleton in Hb as ->.
    exists ([0; 0; 0; 0], [10; 10; 10; 1]),
           (mk_ndarray [10; 10; 10; 1] (replicate 1000 0)).
    split_and!; [reflexivity|by vm_compute|reflexivity|].
    by apply Forall_replicate.
Defined.

Lemma dirty_until_installed_line :
  _dirty_blocks (fst (execute id spec_getBlockBounds line_inputs
                        Slot_LabelAndFeatureMatrix line_dirty)) = ∅
  ∧ ∀ b, b ∈ _dirty_blocks line_dirty →
         ∃ m, recompute id spec_getBlockBounds line_inputs
                (_blockshape line_dirty) b = Ok m
              ∧ _blockwise_feature_matrices
                  (fst (execute id spec_getBlockBounds line_inputs
                          Slot_LabelAndFeatureMatrix line_dirty)) !! b
                = Some m.
Proof.
  apply (proj1 (proj2 (proj2 (proj2
           (dirty_until_installed id spec_getBlockBounds blocks_of_two
              spec_getIntersectingBlocks))))
           line_inputs line_dirty).
  assert (Hd : _dirty_blocks line_dirty = {[ [0; 0]; [2; 0] ]})
    by (by vm_compute).
  intros b Hb. rewrite Hd in Hb.
  apply elem_of_union in Hb as [Hb|Hb]; apply elem_of_singleton in Hb;
    subst b; reflexivity.
Defined.

(** ** Where the code and the description part *)

(** A read with no dirty block reports two values, and the first one,
    0, is not the final completion. *)
Lemma fresh_read_reports_zero_first :
  size (_dirty_blocks (@init Z)) = 0%nat
  ∧ progressSignal
      (fst (execute id spec_getBlockBounds line_inputs
                    Slot_LabelAndFeatureMatrix init))
    = [0%Q; 100%Q]
  ∧ [0%Q; 100%Q] ≠ [100%Q].
Proof. by vm_compute. Qed.

(** A feature feed whose channel axis is not the last one: the two
    shapes agree on every axis but the last, the label feed has its
    single channel last, and setup raises all the same. *)
Lemma setup_rejects_channel_first_features :
  all_but_last (meta_shape (meta (FeatureImage channel_first_inputs)))
  = all_but_last (meta_shape (meta (LabelImage channel_first_inputs)))
  ∧ last (meta_axiskeys (meta (LabelImage channel_first_inputs))) = Some Key_c
  ∧ last (meta_shape (meta (LabelImage channel_first_inputs))) = Some 1
  ∧ setupOutputs whole_array_block channel_first_inputs init
    = (init, Raise (AssertionError NoMessage)).
Proof. by vm_compute. Qed.

(** * Further properties of the cache *)

Section CacheProperties.
Context {V : Type} (to_float : Z → V).
Variable getBlockBounds : list Z → list Z → list Z → result (list Z * list Z).

Local Abbreviation update_block := (_update_block to_float getBlockBounds).
Local Abbreviation exec := (execute to_float getBlockBounds).
Local Abbreviation recomp := (recompute to_float getBlockBounds).
Local Abbreviation matrices := _blockwise_feature_matrices.

Implicit Types (s : cache V) (inp : inputs V) (b : list Z).

(** ** A recompute, twice *)

(** X1: a recompute that returned has left its block clean and its lock in
    place: recomputing the same block again, with whatever inputs,
    returns and leaves the operator exactly as it is. *)
Theorem update_block_again_changes_nothing inp inp' b s s1 :
  _update_block to_float getBlockBounds inp b s = (s1, Ok tt) →
  _update_block to_float getBlockBounds inp' b s1 = (s1, Ok tt).
Proof.
  intros Hrun. rewrite update_block_eq in Hrun.
  assert (Hs1 : (b ∉ _dirty_blocks s1) ∧ b ∈ _block_locks s1).
  { destruct (bool_decide (b ∈ _dirty_blocks s)) eqn:Hb.
    - destruct (recomp inp (_blockshape s) b); [|done].
      injection Hrun as <-. simpl. split.
      + rewrite elem_of_difference, elem_of_singleton. by intros [_ []].
      + apply elem_of_union_l. by apply elem_of_singleton.
    - apply bool_decide_eq_false in Hb. injection Hrun as <-. simpl.
      split; [done|]. apply elem_of_union_l. by apply elem_of_singleton. }
  destruct Hs1 as [Hclean Hlock].
  rewrite update_block_eq, bool_decide_eq_false_2 by done.
  by rewrite (locked_known b s1 Hlock).
Qed.

(** ** What a state invariant needs to survive a read *)

Lemma pool_run_preserves (P : cache V → Prop) inp (N : Z) l s :
  N ≠ 0 →
  (∀ b s, P s → P (locked b s)) →
  (∀ b m s, b ∈ _dirty_blocks s → P s → P (installed b m s)) →
  (∀ q s, P s → P (fire_progress q s)) →
  P s →
  P (fst (pool_run (requests to_float getBlockBounds inp N l) s)).
Proof.
  intros HN Hlocked Hinst Hfire. revert s.
  induction l as [|a l IH]; intros s Hs; [done|].
  rewrite pool_run_cons, request_eq by done.
  destruct (bool_decide (a ∈ _dirty_blocks s)) eqn:Ha.
  - apply bool_decide_eq_true in Ha.
    destruct (recomp inp (_blockshape s) a) as [m|e].
    + specialize (IH (fire_progress
        (percent_complete N (Z.of_nat (size (_dirty_blocks s ∖ {[a]}))))
        (installed a m s)) (Hfire _ _ (Hinst _ _ _ Ha Hs))).
      by destruct (pool_run _ _).
    + specialize (IH (locked a s) (Hlocked _ _ Hs)).
      by destruct (pool_run _ _).
  - specialize (IH (fire_progress
      (percent_complete N (Z.of_nat (size (_dirty_blocks s)))) (locked a s))
      (Hfire _ _ (Hlocked _ _ Hs))).
    by destruct (pool_run _ _).
Qed.

Lemma execute_preserves (P : cache V → Prop) inp slot_ s :
  (∀ b s, P s → P (locked b s)) →
  (∀ b m s, b ∈ _dirty_blocks s → P s → P (installed b m s)) →
  (∀ q s, P s → P (fire_progress q s)) →
  P s →
  P (fst (exec inp slot_ s)).
Proof.
  intros Hlocked Hinst Hfire Hs.
  destruct (decide (slot_ = Slot_LabelAndFeatureMatrix)) as [->|Hslot].
  2:{ unfold execute, bind, py_assert, raise.
      by rewrite bool_decide_eq_false_2 by done. }
  rewrite execute_eq. simpl.
  assert (Hpool : P (fst (pool_run
            (requests to_float getBlockBounds inp
               (Z.of_nat (size (_dirty_blocks s)))
               (elements (_dirty_blocks s)))
            (fire_progress 0%Q s)))).
  { destruct (decide (elements (_dirty_blocks s) = [])) as [Hnil|Hne].
    - rewrite Hnil. simpl. by apply Hfire.
    - apply pool_run_preserves; try done; [|by apply Hfire].
      by apply size_dirty_nonzero. }
  destruct (pool_run _ _) as [s1 [e|]]; simpl in *; [done|].
  destruct (bool_decide (matrices s1 = ∅)); simpl; [by apply Hfire|].
  destruct (concatenate_axis0 _); simpl; [by apply Hfire|done].
Qed.

(** ** What a read leaves alone *)

(** X2: a read, whether it returns or raises and whatever slot it is asked
    for, works on the dirty blocks only: no block becomes dirty, the
    matrix of a block that was not dirty stays as it is (absent if it
    was absent), and the block shape and the notices sent downstream
    are untouched. *)
Theorem execute_touches_dirty_blocks_only inp slot_ s :
  _blockshape (fst (execute to_float getBlockBounds inp slot_ s))
  = _blockshape s
  ∧ LabelAndFeatureMatrix_dirty
      (fst (execute to_float getBlockBounds inp slot_ s))
    = LabelAndFeatureMatrix_dirty s
  ∧ _dirty_blocks (fst (execute to_float getBlockBounds inp slot_ s))
    ⊆ _dirty_blocks s
  ∧ (∀ b, b ∉ _dirty_blocks s →
          _blockwise_feature_matrices
            (fst (execute to_float getBlockBounds inp slot_ s)) !! b
          = _blockwise_feature_matrices s !! b).
Proof.
  split_and!.
  - by apply (execute_preserves (λ s', _blockshape s' = _blockshape s)).
  - by apply (execute_preserves
                (λ s', LabelAndFeatureMatrix_dirty s'
                       = LabelAndFeatureMatrix_dirty s)).
  - apply (execute_preserves (λ s', _dirty_blocks s' ⊆ _dirty_blocks s));
      try done.
    intros b m s' _ Hs' x. simpl. rewrite elem_of_difference.
    intros [Hx _]. by apply Hs'.
  - intros b Hb.
    apply (execute_preserves
             (λ s', (b ∉ _dirty_blocks s')
                    ∧ matrices s' !! b = matrices s !! b)); try done.
    intros a m s' Ha [Hnd Hm]. simpl. split.
    + rewrite elem_of_difference. by intros [? _].
    + rewrite <- Hm. apply lookup_insert_ne. by intros ->.
Qed.

(** ** Setup, invalidations and histories *)

Section CacheCalls.
Variable determineBlockShape : list Z → Q → result (list Z).
Variable getIntersectingBlocks : list Z → list Z * list Z → result (list (list Z)).

Local Abbreviation setup := (setupOutputs determineBlockShape).
Local Abbreviation propagate := (propagateDirty getIntersectingBlocks).
Local Abbreviation after_call :=
  (after to_float determineBlockShape getIntersectingBlocks getBlockBounds).
Local Abbreviation after_calls :=
  (after_all to_float determineBlockShape getIntersectingBlocks getBlockBounds).

(** What an invalidation adds to the dirty blocks depends on the slot,
    the region and the block shape only. *)
Lemma propagate_adds slot_ (roi_ : roi) (blockshape : option (list Z)) :
  ∃ B : gset (list Z), ∀ s,
    _blockshape s = blockshape →
    _dirty_blocks (fst (propagate slot_ roi_ s)) = _dirty_blocks s ∪ B
    ∧ _blockshape (fst (propagate slot_ roi_ s)) = blockshape
    ∧ matrices (fst (propagate slot_ roi_ s)) = matrices s
    ∧ _block_locks (fst (propagate slot_ roi_ s)) = _block_locks s.
Proof.
  unfold propagateDirty, bind, py_assert, lift, modify, ret, raise, get.
  assert (Hnone : ∃ B : gset (list Z), ∀ s,
            _blockshape s = blockshape →
            _dirty_blocks s = _dirty_blocks s ∪ B
            ∧ _blockshape s = blockshape
            ∧ matrices s = matrices s
            ∧ _block_locks s = _block_locks s).
  { exists ∅. intros s Hs. split_and!; try done. by rewrite union_empty_r_L. }
  destruct (bool_decide (slot_ = Slot_NonZeroLabelBlocks)); [done|].
  destruct (bool_decide (slot_ = Slot_FeatureImage)
            || bool_decide (slot_ = Slot_LabelImage)); simpl; [|done].
  destruct (setitem_m1 (start roi_) 0) as [start'|e1]; simpl; [|done].
  destruct (setitem_m1 (stop roi_) 1) as [stop'|e2]; simpl; [|done].
  destruct blockshape as [bs|].
  - destruct (getIntersectingBlocks bs (start', stop')) as [blocks|e3] eqn:Hb.
    + exists (list_to_set blocks). intros s Hs. rewrite Hs, Hb. by simpl.
    + destruct Hnone as [B HB]. exists B. intros s Hs. rewrite Hs, Hb. simpl.
      by apply HB.
  - destruct Hnone as [B HB]. exists B. intros s Hs. rewrite Hs. simpl.
    by apply HB.
Qed.

(** X3: invalidations compose as set unions: sending the same invalidation
    twice marks the blocks the first one marked, and two invalidations
    mark the same blocks in either order.  The cached matrices are
    never touched by them. *)
Theorem invalidations_idempotent_and_commute slot1 (roi1 : roi) slot2 (roi2 : roi) s :
  _dirty_blocks (fst (propagate slot1 roi1 (fst (propagate slot1 roi1 s))))
  = _dirty_blocks (fst (propagate slot1 roi1 s))
  ∧ _dirty_blocks (fst (propagate slot2 roi2 (fst (propagate slot1 roi1 s))))
    = _dirty_blocks (fst (propagate slot1 roi1 (fst (propagate slot2 roi2 s))))
  ∧ matrices (fst (propagate slot2 roi2 (fst (propagate slot1 roi1 s))))
    = matrices s.
Proof.
  destruct (propagate_adds slot1 roi1 (_blockshape s)) as [B1 H1].
  destruct (propagate_adds slot2 roi2 (_blockshape s)) as [B2 H2].
  destruct (H1 s eq_refl) as (Hd1 & Hb1 & Hm1 & _).
  destruct (H2 s eq_refl) as (Hd2 & Hb2 & Hm2 & _).
  destruct (H1 _ Hb1) as (Hd11 & _).
  destruct (H2 _ Hb1) as (Hd12 & _ & Hm12 & _).
  destruct (H1 _ Hb2) as (Hd21 & _).
  split_and!.
  - rewrite Hd11, Hd1. apply leibniz_equiv. intros x.
    rewrite !elem_of_union. tauto.
  - rewrite Hd12, Hd21, Hd1, Hd2. apply leibniz_equiv. intros x.
    rewrite !elem_of_union. tauto.
  - by rewrite Hm12, Hm1.
Qed.

(** X4: the blocks the cache knows of (dirty, or with a matrix) change
    through invalidations only: setup, a recompute and a read leave that
    set exactly as it is, whether they return or raise. *)
Theorem known_blocks_change_by_invalidation_only inp b slot_ s :
  known (fst (setup inp s)) = known s
  ∧ known (fst (update_block inp b s)) = known s
  ∧ known (fst (exec inp slot_ s)) = known s.
Proof.
  assert (Hinst : ∀ a (m : ndarray V) s0,
            a ∈ _dirty_blocks s0 → known (installed a m s0) = known s0).
  { intros a m s0 Ha. unfold known. simpl. rewrite dom_insert_L.
    apply leibniz_equiv. intros x.
    rewrite !elem_of_union, elem_of_difference, elem_of_singleton.
    destruct (decide (x = a)) as [->|]; tauto. }
  split_and!.
  - unfold known. by destruct (setup_frame determineBlockShape inp s) as [-> ->].
  - rewrite update_block_eq.
    destruct (bool_decide (b ∈ _dirty_blocks s)) eqn:Hb; [|done].
    apply bool_decide_eq_true in Hb.
    destruct (recomp inp (_blockshape s) b); [|done]. by apply Hinst.
  - apply (execute_preserves (λ s', known s' = known s)); try done.
    intros a m s' Ha Hs'. by rewrite Hinst.
Qed.

(** X5: every matrix in the cache was installed under the lock of its
    block, and locks are never taken down: through any history of calls
    on a new operator, every block with a cached matrix has its lock. *)
Theorem cached_blocks_have_locks (cs : list (call V)) :
  dom (matrices (after_calls cs init)) ⊆ _block_locks (after_calls cs init).
Proof.
  assert (Hstep : ∀ c s, dom (matrices s) ⊆ _block_locks s →
            dom (matrices (after_call c s)) ⊆ _block_locks (after_call c s)).
  { intros c s Hs.
    assert (Hlocked : ∀ a s0, dom (matrices s0) ⊆ _block_locks s0 →
              dom (matrices (locked a s0)) ⊆ _block_locks (locked a s0)).
    { intros a s0 Hs0 x Hx. simpl in *. apply elem_of_union_r. by apply Hs0. }
    assert (Hinst : ∀ a (m : ndarray V) s0,
              dom (matrices s0) ⊆ _block_locks s0 →
              dom (matrices (installed a m s0)) ⊆ _block_locks (installed a m s0)).
    { intros a m s0 Hs0 x. simpl. rewrite dom_insert_L, !elem_of_union.
      intros [Hx|Hx]; [by left|right; by apply Hs0]. }
    destruct c as [inp|slot_ roi_|inp a|inp slot_]; simpl.
    - assert (Hl : _block_locks (fst (setup inp s)) = _block_locks s).
      { unfold setupOutputs, bind, py_assert, lift, modify, ret, raise.
        repeat match goal with
               | |- context [match ?r with Ok _ => _ | Raise _ => _ end] =>
                   destruct r; simpl
               | |- context [if ?c then _ else _] => destruct c; simpl
               end; done. }
      rewrite Hl. by rewrite (proj2 (setup_frame determineBlockShape inp s)).
    - destruct (propagate_adds slot_ roi_ (_blockshape s)) as [B HB].
      destruct (HB s eq_refl) as (_ & _ & -> & ->). done.
    - rewrite update_block_eq.
      destruct (bool_decide (a ∈ _dirty_blocks s)); [|by apply Hlocked].
      destruct (recomp inp (_blockshape s) a); [by apply Hinst|by apply Hlocked].
    - apply (execute_preserves
               (λ s', dom (matrices s') ⊆ _block_locks s')); try done.
      intros a m s' _. by apply Hinst. }
  assert (Hall : ∀ s, dom (matrices s) ⊆ _block_locks s →
            dom (matrices (after_calls cs s)) ⊆ _block_locks (after_calls cs s)).
  { induction cs as [|c cs' IH]; intros s Hs; [done|].
    simpl. apply IH. by apply Hstep. }
  apply Hall. simpl. by rewrite dom_empty_L.
Qed.
End CacheCalls.
End CacheProperties.

(** ** The progress of one read *)

Section CacheProgress.
Context {V : Type} (to_float : Z → V).
Variable getBlockBounds : list Z → list Z → list Z → result (list Z * list Z).

Local Abbreviation exec := (execute to_float getBlockBounds).
Local Abbreviation matrices := _blockwise_feature_matrices.

Implicit Types (s : cache V) (inp : inputs V).

Lemma percent_nonneg (k n : nat) :
  (0 <= 95 * inject_Z (Z.of_nat k) / inject_Z (Z.of_nat n))%Q.
Proof.
  apply Qmult_le_0_compat.
  - apply Qmult_le_0_compat; [done|]. unfold Qle. simpl. lia.
  - apply Qinv_le_0_compat. unfold Qle. simpl. lia.
Qed.

Lemma percent_monotone (j k n : nat) :
  (j ≤ k)%nat →
  (95 * inject_Z (Z.of_nat j) / inject_Z (Z.of_nat n)
   <= 95 * inject_Z (Z.of_nat k) / inject_Z (Z.of_nat n))%Q.
Proof.
  intros Hjk. apply Qmult_le_compat_r.
  - unfold Qle. simpl. lia.
  - apply Qinv_le_0_compat. unfold Qle. simpl. lia.
Qed.

Lemma percents_sorted (n a m : nat) :
  StronglySorted Qle
    (map (λ k : nat, (95 * inject_Z (Z.of_nat k) / inject_Z (Z.of_nat n))%Q)
         (seq a m)).
Proof.
  revert a. induction m as [|m IH]; intros a; simpl; constructor.
  - apply IH.
  - apply Forall_forall. intros q Hq.
    apply list_elem_of_fmap in Hq as (k & -> & Hk%list_elem_of_In%in_seq).
    apply percent_monotone. lia.
Qed.

(** X6: the values one read reports start at 0, never go down and stay
    within 0 .. 100, however many recomputes return or raise. *)
Theorem execute_progress_never_goes_down inp s :
  ∃ events : list Q,
    progressSignal
      (fst (execute to_float getBlockBounds inp Slot_LabelAndFeatureMatrix s))
    = progressSignal s ++ events
    ∧ head events = Some 0%Q
    ∧ StronglySorted Qle events
    ∧ Forall (λ q, (0 <= q)%Q ∧ (q <= 100)%Q) events.
Proof.
  rewrite execute_eq. simpl.
  destruct (pool_run _ _) as [s1 failure] eqn:Hpool.
  apply execute_pool_events in Hpool as (m & Hm & Hev & _).
  set (f := λ k : nat,
         (95 * inject_Z (Z.of_nat k)
          / inject_Z (Z.of_nat (size (_dirty_blocks s))))%Q) in *.
  assert (Hrange : Forall (λ q, (0 <= q)%Q ∧ (q <= 100)%Q)
                          (0%Q :: map f (seq 1 m))).
  { constructor; [done|]. apply Forall_forall. intros q Hq.
    apply list_elem_of_fmap in Hq as (k & -> & Hk%list_elem_of_In%in_seq).
    split; [apply percent_nonneg|].
    apply Qlt_le_weak, percent_below_100. lia. }
  assert (Hsorted : StronglySorted Qle (0%Q :: map f (seq 1 m))).
  { constructor; [apply percents_sorted|].
    eapply Forall_impl; [apply (Forall_inv_tail Hrange)|]. by intros q [? _]. }
  assert (Hstop : ∃ events, progressSignal s1 = progressSignal s ++ events
            ∧ head events = Some 0%Q
            ∧ StronglySorted Qle events
            ∧ Forall (λ q, (0 <= q)%Q ∧ (q <= 100)%Q) events).
  { exists (0%Q :: map f (seq 1 m)). by split_and!. }
  assert (Hdone : ∃ events,
            progressSignal (fire_progress 100%Q s1) = progressSignal s ++ events
            ∧ head events = Some 0%Q
            ∧ StronglySorted Qle events
            ∧ Forall (λ q, (0 <= q)%Q ∧ (q <= 100)%Q) events).
  { exists ((0%Q :: map f (seq 1 m)) ++ [100%Q]). split_and!.
    - simpl. rewrite Hev. by rewrite <- app_assoc.
    - done.
    - apply StronglySorted_app_2; [|done|repeat constructor].
      intros q1 q2 Hq1 Hq2. apply list_elem_of_singleton in Hq2 as ->.
      by apply (proj1 (Forall_forall _ _) Hrange q1).
    - apply Forall_app. split; [done|]. by repeat constructor. }
  destruct failure as [e|]; simpl; [done|].
  destruct (bool_decide (matrices s1 = ∅)); simpl; [done|].
  by destruct (concatenate_axis0 _).
Qed.
End CacheProgress.

(** * The rows of a block matrix *)

Section Indexing.
Context {A : Type}.

Lemma flat_map_block_lookup {B} (f : B → list A) (l : list B) (n i r : nat) x :
  (∀ y, y ∈ l → length (f y) = n) →
  l !! i = Some x →
  (r < n)%nat →
  flat_map f l !! (i * n + r)%nat = f x !! r.
Proof.
  revert i. induction l as [|y l IH]; intros i Hlen Hi Hr; [done|].
  simpl. destruct i as [|i]; simpl in *.
  - injection Hi as ->. apply lookup_app_l. rewrite Hlen; [done|by left].
  - rewrite lookup_app_r by (rewrite Hlen; [lia|by left]).
    rewrite Hlen by (by left).
    replace (n + i * n + r - n)%nat with (i * n + r)%nat by lia.
    apply IH; [|done|done]. intros z Hz. apply Hlen. by right.
Qed.

Lemma flat_map_block_take {B} (f : B → list A) (l : list B) (n i : nat) x :
  (∀ y, y ∈ l → length (f y) = n) →
  l !! i = Some x →
  take n (drop (i * n) (flat_map f l)) = f x.
Proof.
  revert i. induction l as [|y l IH]; intros i Hlen Hi; [done|].
  destruct i as [|i]; simpl in *.
  - injection Hi as ->. rewrite drop_0, take_app_length'; [done|].
    symmetry. apply Hlen. by left.
  - rewrite drop_app_add' by (symmetry; apply Hlen; by left).
    apply IH; [|done]. intros z Hz. apply Hlen. by right.
Qed.

Lemma flat_map_seq_nth {B} (h : B → list A) (F : nat → list A) (l : list B) :
  (∀ i x, l !! i = Some x → F i = h x) →
  flat_map F (seq 0 (length l)) = flat_map h l.
Proof.
  revert F. induction l as [|x l IH]; intros F HF; [done|].
  simpl. rewrite (HF 0%nat x eq_refl). f_equal.
  rewrite <- seq_shift, flat_map_concat_map, map_map, <- flat_map_concat_map.
  apply IH. intros i y Hy. by apply (HF (S i)).
Qed.

Lemma omap_lookup_all (l : list A) (n : nat) :
  (length l ≤ n)%nat →
  omap (λ j : nat, l !! (j * 1 + 0)%nat) (seq 0 n) = l.
Proof.
  assert (Hgen : ∀ a, (length l ≤ a + n)%nat →
            omap (λ j : nat, l !! (j * 1 + 0)%nat) (seq a n) = drop a l).
  { induction n as [|n IH]; intros a Ha; simpl.
    - symmetry. apply drop_ge. lia.
    - replace (a * 1 + 0)%nat with a by lia.
      destruct (l !! a) as [x|] eqn:Hx.
      + rewrite IH by lia. symmetry. by apply drop_S.
      + rewrite IH by lia. apply lookup_ge_None in Hx.
        rewrite !drop_ge; [done|lia|lia]. }
  intros Hn. by rewrite Hgen.
Qed.

Lemma rmapM_ok {B C} (f : B → result C) (g : B → C) (l : list B) :
  (∀ x, x ∈ l → f x = Ok (g x)) →
  rmapM f l = Ok (map g l).
Proof.
  induction l as [|x l IH]; intros Hf; [done|].
  simpl. rewrite Hf by (by left). simpl. rewrite IH; [done|].
  intros y Hy. apply Hf. by right.
Qed.
End Indexing.

(** ** Multi-indices *)

Lemma ndindex_elem sh p :
  p ∈ ndindex sh → Forall2 in_axis sh p.
Proof.
  revert p. induction sh as [|d sh IH]; intros p Hp; simpl in Hp.
  - apply list_elem_of_singleton in Hp as ->. constructor.
  - apply list_elem_of_In, in_flat_map in Hp as (i & Hi & Hp).
    apply list_elem_of_In, elem_of_seqZ in Hi.
    apply list_elem_of_In, list_elem_of_fmap in Hp as (q & -> & Hq).
    constructor; [unfold in_axis; lia|by apply IH].
Qed.

Lemma prod_shape_nonneg sh :
  Forall (λ d, 0 ≤ d) sh → 0 ≤ prod_shape sh.
Proof. induction 1; simpl; lia. Qed.

Lemma ndindex_length sh :
  Forall (λ d, 0 ≤ d) sh → length (ndindex sh) = size_of sh.
Proof.
  unfold size_of. induction 1 as [|d sh Hd Hsh IH]; [done|].
  simpl. rewrite Z2Nat.inj_mul by (try done; by apply prod_shape_nonneg).
  rewrite <- IH, <- (length_seqZ 0 d).
  generalize (seqZ 0 d). intros l. induction l as [|i l IHl]; [done|].
  simpl. rewrite length_app, length_map, IHl. done.
Qed.

Lemma prod_shape_pos sh p :
  Forall2 in_axis sh p → 0 < prod_shape sh.
Proof.
  induction 1 as [|d i sh p Hd _ IH]; simpl; [done|].
  unfold in_axis in Hd. nia.
Qed.

Lemma ravel_acc sh p acc :
  Forall2 in_axis sh p →
  ravel sh p acc = acc * prod_shape sh + ravel sh p 0
  ∧ 0 ≤ ravel sh p 0 < prod_shape sh.
Proof.
  intros Hp. revert acc. induction Hp as [|d i sh p Hd Hp IH]; intros acc.
  - simpl. lia.
  - simpl. pose proof (prod_shape_pos _ _ Hp) as Hpos.
    destruct (IH (acc * d + i)) as [-> Hr]. destruct (IH (0 * d + i)) as [-> _].
    unfold in_axis in Hd. split; [lia|nia].
Qed.

Lemma ndindex_lookup_ravel sh p :
  Forall2 in_axis sh p →
  ndindex sh !! Z.to_nat (ravel sh p 0) = Some p.
Proof.
  induction 1 as [|d i sh p Hd Hp IH]; [done|].
  simpl. destruct (ravel_acc sh p (0 * d + i) Hp) as [-> Hr].
  pose proof (prod_shape_pos _ _ Hp) as Hpos.
  unfold in_axis in Hd.
  assert (Hlen : length (ndindex sh) = Z.to_nat (prod_shape sh)).
  { apply ndindex_length. clear -Hp. induction Hp as [|???? Hd]; constructor;
      [unfold in_axis in Hd; lia|done]. }
  replace (Z.to_nat ((0 * d + i) * prod_shape sh + ravel sh p 0))
    with (Z.to_nat i * Z.to_nat (prod_shape sh) + Z.to_nat (ravel sh p 0))%nat
    by nia.
  rewrite (flat_map_block_lookup _ _ _ _ _ i).
  - rewrite list_lookup_fmap, IH. done.
  - intros y _. by rewrite length_map.
  - rewrite lookup_seqZ_lt by lia. f_equal. lia.
  - lia.
Qed.

Lemma norm_indices_ok sh p :
  Forall2 in_axis sh p → norm_indices sh p = Ok p.
Proof.
  induction 1 as [|d i sh p Hd _ IH]; [done|].
  simpl. unfold norm_index. unfold in_axis in Hd.
  replace (0 <=? i) with true by (symmetry; apply Z.leb_le; lia).
  replace (i <? d) with true by (symmetry; apply Z.ltb_lt; lia).
  simpl. by rewrite IH.
Qed.

Lemma ndindex_app sh c :
  ndindex (sh ++ [c])
  = flat_map (λ p, map (λ ch, p ++ [ch]) (seqZ 0 c)) (ndindex sh).
Proof.
  induction sh as [|d sh IH]; simpl.
  - rewrite app_nil_r. generalize (seqZ 0 c). intros l.
    induction l as [|i l IHl]; [done|]. simpl. by f_equal.
  - rewrite IH. generalize (seqZ 0 d). intros l.
    induction l as [|i l IHl]; [done|]. simpl.
    rewrite flat_map_app. f_equal; [|done].
    generalize (ndindex sh). intros l'. induction l' as [|q l' IHl']; [done|].
    simpl. rewrite map_app, map_map. by f_equal.
Qed.

(** ** Index arrays *)

Lemma map_nth_seq (p : list Z) :
  map (λ ax : nat, nth ax p 0) (seq 0 (length p)) = p.
Proof.
  induction p as [|x p IH]; [done|].
  simpl. f_equal. rewrite <- seq_shift, map_map. done.
Qed.

Lemma index_arrays_length n Q : length (index_arrays n Q) = n.
Proof. unfold index_arrays. by rewrite length_map, length_seq. Qed.

Lemma index_arrays_elem n Q c :
  c ∈ index_arrays n Q → length c = length Q.
Proof.
  unfold index_arrays. intros (ax & -> & _)%list_elem_of_fmap.
  by rewrite length_map.
Qed.

Lemma index_arrays_row n Q (i : nat) p :
  Q !! i = Some p →
  length p = n →
  map (λ c, nth i c 0) (index_arrays n Q) = p.
Proof.
  intros Hi <-. unfold index_arrays. rewrite map_map.
  rewrite <- (map_nth_seq p) at 2. apply map_ext. intros ax.
  by rewrite nth_lookup, list_lookup_fmap, Hi.
Qed.

Lemma Forall2_in_axis_length sh p : Forall2 in_axis sh p → length p = length sh.
Proof. intros H. symmetry. by eapply Forall2_length. Qed.

(** Picking the points [Q] out of an array laid out as one row
    [rowf q] per multi-index [q] of its leading axes gives the rows of
    the points of [Q], in the order of [Q]. *)
Lemma getitem_arrays_rows {A} (lead rest : list Z) (rowf : list Z → list A)
    (Q : list (list Z)) :
  lead ≠ [] →
  (∀ q, q ∈ ndindex lead → length (rowf q) = size_of rest) →
  Forall (Forall2 in_axis lead) Q →
  getitem_arrays (mk_ndarray (lead ++ rest) (flat_map rowf (ndindex lead)))
                 (index_arrays (length lead) Q)
  = Ok (mk_ndarray (Z.of_nat (length Q) :: rest) (flat_map rowf Q)).
Proof.
  intros Hlead Hrow HQ. unfold getitem_arrays.
  pose proof (index_arrays_length (length lead) Q) as Hlen.
  pose proof (index_arrays_elem (length lead) Q) as Hcol.
  assert (Hrows : ∀ i p, Q !! i = Some p →
            map (λ c, nth i c 0) (index_arrays (length lead) Q) = p).
  { intros i p Hi. apply index_arrays_row; [done|].
    apply Forall2_in_axis_length.
    by apply (proj1 (Forall_forall _ _) HQ), list_elem_of_lookup_2 with i. }
  destruct (index_arrays (length lead) Q) as [|c0 cols] eqn:Hcols.
  { destruct lead; [done|]. simpl in Hlen. lia. }
  simpl shape. simpl flat. rewrite Hlen.
  rewrite bool_decide_eq_false_2 by (rewrite length_app; lia).
  assert (Hc0 : length c0 = length Q) by (apply Hcol; by left).
  assert (Hall : forallb (λ c : list Z, bool_decide (length c = length c0))
                         (c0 :: cols) = true).
  { apply forallb_forall. intros c Hc%list_elem_of_In.
    apply bool_decide_eq_true. rewrite Hc0. by apply Hcol. }
  rewrite Hall. simpl negb. cbv iota.
  rewrite take_app_length, drop_app_length, Hc0.
  rewrite (rmapM_ok _ (λ i, rowf (nth i Q []))).
  - simpl. do 2 f_equal. rewrite flat_map_concat_map. f_equal.
    clear. induction Q as [|q Q IH]; [done|].
    simpl. f_equal. by rewrite <- seq_shift, map_map.
  - intros i Hi%list_elem_of_In%in_seq.
    destruct (lookup_lt_is_Some_2 Q i) as [p Hp]; [lia|].
    rewrite (Hrows i p Hp).
    assert (Hin : Forall2 in_axis lead p)
      by (by apply (proj1 (Forall_forall _ _) HQ), list_elem_of_lookup_2 with i).
    rewrite (norm_indices_ok _ _ Hin). simpl.
    rewrite (flat_map_block_take rowf (ndindex lead) (size_of rest) _ p);
      [|done|by apply ndindex_lookup_ravel].
    by rewrite nth_lookup, Hp.
Qed.

(** ** Lists of one length, seen through their coordinates *)

Lemma as_map_seq (n : nat) (p : list Z) :
  length p = n → p = map (λ ax : nat, nth ax p 0) (seq 0 n).
Proof. intros <-. by rewrite map_nth_seq. Qed.

Lemma zip_with_map_seq {B C D} (f : B → C → D) (g : nat → B) (h : nat → C)
    (l : list nat) :
  zip_with f (map g l) (map h l) = map (λ ax, f (g ax) (h ax)) l.
Proof.
  change (map g l) with (g <$> l). change (map h l) with (h <$> l).
  by rewrite zip_with_fmap_l, zip_with_fmap_r, zip_with_diag.
Qed.

Lemma nth_map_seq (g : nat → Z) (n ax : nat) :
  (ax < n)%nat → nth ax (map g (seq 0 n)) 0 = g ax.
Proof.
  intros Hax. rewrite nth_lookup, list_lookup_fmap, lookup_seq_lt by done.
  done.
Qed.

Lemma zip_with_sub_add (a d : list Z) :
  length a = length d →
  zip_with Z.sub (zip_with Z.add a d) a = d.
Proof.
  revert d. induction a as [|x a IH]; intros [|y d] Hlen; try done.
  simpl in *. f_equal; [lia|]. apply IH. lia.
Qed.

Lemma zip_with_add_sub (m p : list Z) :
  length m = length p →
  zip_with Z.add m (zip_with Z.sub p m) = p.
Proof.
  revert p. induction m as [|x m IH]; intros [|y p] Hlen; try done.
  simpl in *. f_equal; [lia|]. apply IH. lia.
Qed.

Lemma filter_zip_map {B} (g : B → Z) (l : list B) :
  map fst (filter (λ p : B * Z, snd p ≠ 0) (zip l (map g l)))
  = filter (λ x, g x ≠ 0) l.
Proof.
  induction l as [|x l IH]; [done|]. simpl.
  destruct (decide (g x = 0)) as [Hz|Hnz].
  - rewrite !filter_cons_False by (simpl; intros H; by apply H). apply IH.
  - rewrite !filter_cons_True by done. simpl. by rewrite IH.
Qed.

Lemma rmapM_map {B C D} (f : C → result D) (h : B → C) (l : list B) :
  rmapM f (map h l) = rmapM (λ x, f (h x)) l.
Proof. induction l as [|x l IH]; [done|]. simpl. by rewrite IH. Qed.

Lemma foldr_min_le (x : Z) (l : list Z) (y : Z) :
  y ∈ x :: l → foldr Z.min x l ≤ y.
Proof.
  induction l as [|z l IH]; simpl.
  - intros ->%list_elem_of_singleton. lia.
  - intros Hy. apply elem_of_cons in Hy as [Heq|Hy].
    + subst y. assert (foldr Z.min x l ≤ x) by (clear; induction l; simpl; lia).
      lia.
    + apply elem_of_cons in Hy as [Heq|Hy]; [lia|].
      assert (foldr Z.min x l ≤ y) by (apply IH; by right). lia.
Qed.

Lemma foldr_max_ge (x : Z) (l : list Z) (y : Z) :
  y ∈ x :: l → y ≤ foldr Z.max x l.
Proof.
  induction l as [|z l IH]; simpl.
  - intros ->%list_elem_of_singleton. lia.
  - intros Hy. apply elem_of_cons in Hy as [Heq|Hy].
    + subst y. assert (x ≤ foldr Z.max x l) by (clear; induction l; simpl; lia).
      lia.
    + apply elem_of_cons in Hy as [Heq|Hy]; [lia|].
      assert (y ≤ foldr Z.max x l) by (apply IH; by right). lia.
Qed.

(** The bounding box of a non-empty list of points: the per-axis minima
    and maxima exist, and every point, counted from the minima, lies
    inside the box. *)
Lemma bounding_box_exists (n : nat) (p0 : list Z) (P : list (list Z)) :
  Forall (λ p, length p = n) (p0 :: P) →
  ∃ mins maxes,
    rmapM np_min (index_arrays n (p0 :: P)) = Ok mins
    ∧ rmapM np_max (index_arrays n (p0 :: P)) = Ok maxes
    ∧ length mins = n
    ∧ length maxes = n
    ∧ Forall (λ p, Forall2 in_axis
                     (zip_with Z.sub (map (Z.add 1) maxes) mins)
                     (zip_with Z.sub p mins))
             (p0 :: P).
Proof.
  intros Hlen.
  set (mn := λ ax : nat, foldr Z.min (nth ax p0 0) (map (λ p, nth ax p 0) P)).
  set (mx := λ ax : nat, foldr Z.max (nth ax p0 0) (map (λ p, nth ax p 0) P)).
  exists (map mn (seq 0 n)), (map mx (seq 0 n)).
  unfold index_arrays. rewrite !rmapM_map.
  split_and!.
  - by apply rmapM_ok.
  - by apply rmapM_ok.
  - by rewrite length_map, length_seq.
  - by rewrite length_map, length_seq.
  - apply Forall_forall. intros p Hp.
    rewrite (as_map_seq n p) by (by apply (proj1 (Forall_forall _ _) Hlen)).
    rewrite map_map, !zip_with_map_seq.
    apply Forall2_fmap, Forall_Forall2_diag, Forall_forall.
    intros ax _. unfold in_axis.
    assert (Hin : nth ax p 0 ∈ nth ax p0 0 :: map (λ q, nth ax q 0) P).
    { apply elem_of_cons in Hp as [->|Hp]; [by left|right].
      apply list_elem_of_fmap. by exists p. }
    pose proof (foldr_min_le _ _ _ Hin). pose proof (foldr_max_ge _ _ _ Hin).
    fold (mn ax) in *. fold (mx ax) in *. lia.
Qed.

Lemma feature_positions_eq (n : nat) (mins : list Z) (P : list (list Z)) :
  length mins = n →
  Forall (λ p, length p = n) P →
  zip_with (λ col b, map (λ x, x - b) col) (index_arrays n P) mins
  = index_arrays n (map (λ p, zip_with Z.sub p mins) P).
Proof.
  intros Hm HP. unfold index_arrays.
  rewrite (as_map_seq n mins Hm) at 1. rewrite zip_with_map_seq.
  apply map_ext_in. intros ax Hax%in_seq. rewrite !map_map.
  apply map_ext_in. intros p Hp%list_elem_of_In.
  rewrite (as_map_seq n p) at 2 by (by apply (proj1 (Forall_forall _ _) HP)).
  rewrite (as_map_seq n mins Hm) at 2.
  rewrite zip_with_map_seq, nth_map_seq by lia. done.
Qed.

(** ** The sub-array an image slot serves *)

Lemma map_flat_map {B C D} (f : C → D) (g : B → list C) (l : list B) :
  map f (flat_map g l) = flat_map (λ x, map f (g x)) l.
Proof.
  induction l as [|x l IH]; [done|]. simpl. by rewrite map_app, IH.
Qed.

Lemma flat_map_of_map {B C D} (f : C → list D) (g : B → C) (l : list B) :
  flat_map f (map g l) = flat_map (λ x, f (g x)) l.
Proof. induction l as [|x l IH]; [done|]. simpl. by rewrite IH. Qed.

Lemma flat_map_ext_elem {B C} (f g : B → list C) (l : list B) :
  (∀ x, x ∈ l → f x = g x) → flat_map f l = flat_map g l.
Proof.
  induction l as [|x l IH]; intros Hfg; [done|].
  simpl. rewrite Hfg by (by left). f_equal. apply IH.
  intros y Hy. apply Hfg. by right.
Qed.

Lemma image_request {A} (m : slot_meta) (img : list Z → A)
    (start_ stop_ : list Z) (c0 c1 : Z) :
  length start_ = length stop_ →
  request (image_slot m img) (start_ ++ [c0]) (stop_ ++ [c1])
  = Ok (mk_ndarray
          (zip_with Z.sub stop_ start_ ++ [c1 - c0])
          (flat_map (λ q, map (λ ch, img (zip_with Z.add start_ q ++ [c0 + ch]))
                              (seqZ 0 (c1 - c0)))
                    (ndindex (zip_with Z.sub stop_ start_)))).
Proof.
  intros Hlen. unfold image_slot. simpl.
  rewrite zip_with_app by done. simpl. do 2 f_equal.
  rewrite ndindex_app, map_flat_map. apply flat_map_ext_elem.
  intros q Hq%ndindex_elem%Forall2_in_axis_length. rewrite map_map.
  apply map_ext. intros ch. f_equal.
  rewrite zip_with_app; [done|].
  rewrite Hq, length_zip_with. lia.
Qed.

Lemma getitem_last_single {A} (sh : list Z) (l : list A) :
  (length l ≤ size_of sh)%nat →
  getitem_last (mk_ndarray (sh ++ [1]) l) 0 = Ok (mk_ndarray sh l).
Proof.
  intros Hlen. unfold getitem_last. simpl shape. simpl flat.
  rewrite last_snoc. simpl rbind. rewrite removelast_last.
  change (Z.to_nat 1) with 1%nat. change (Z.to_nat 0) with 0%nat.
  by rewrite omap_lookup_all.
Qed.

Lemma nonzero_image (sh : list Z) (g : list Z → Z) :
  sh ≠ [] →
  nonzero (mk_ndarray sh (map g (ndindex sh)))
  = index_arrays (length sh) (filter (λ q, g q ≠ 0) (ndindex sh)).
Proof.
  intros Hsh. unfold nonzero, index_arrays. simpl shape. simpl flat.
  destruct sh as [|d sh]; [done|]. by rewrite filter_zip_map.
Qed.

(** Putting two matrices of as many rows side by side. *)
Lemma concatenate_axis1_rows {A B} (ra rb : B → list A) (P : list B) (ca cb : Z) :
  (∀ p, p ∈ P → length (ra p) = size_of [ca]) →
  (∀ p, p ∈ P → length (rb p) = size_of [cb]) →
  concatenate_axis1
    (mk_ndarray [Z.of_nat (length P); ca] (flat_map ra P))
    (mk_ndarray [Z.of_nat (length P); cb] (flat_map rb P))
  = Ok (mk_ndarray [Z.of_nat (length P); ca + cb]
          (flat_map (λ p, ra p ++ rb p) P)).
Proof.
  intros Ha Hb. unfold concatenate_axis1. cbn [shape flat].
  rewrite bool_decide_eq_true_2 by done. do 2 f_equal.
  rewrite Nat2Z.id. apply flat_map_seq_nth. intros i p Hp.
  by rewrite (flat_map_block_take ra P _ i p), (flat_map_block_take rb P _ i p).
Qed.

(** ** What a block matrix holds *)

Section BlockRows.
Context {V : Type} (to_float : Z → V).

(** For input slots that serve a label image and a feature image of K
    channels, the matrix extracted for the block of shape [sh] at
    [start_] has one row per labeled point of the block and no other
    row, in C order of the points: 1+K columns, the label of the point
    first.  The K feature values of the row are those the feature image
    holds at the position of the point counted from the start of the
    block. *)
Lemma extract_rows_of_images (mF mL : slot_meta)
    (featimg : list Z → V) (labimg : list Z → Z)
    (start_ sh : list Z) (K : Z) :
  last (meta_shape mF) = Some K →
  length start_ = length sh →
  sh ≠ [] →
  Forall (λ d, 0 ≤ d) sh →
  _extract_feature_matrix to_float
    (mk_inputs (image_slot mF featimg) (image_slot mL labimg))
    (start_ ++ [0], zip_with Z.add start_ sh ++ [1])
  = Ok (mk_ndarray
          [Z.of_nat (length (labeled_positions labimg start_ sh)); 1 + K]
          (flat_map (block_row to_float labimg featimg start_ K)
                    (labeled_positions labimg start_ sh))).
Proof.
  intros HK Hlen Hsh Hnn.
  set (P := labeled_positions labimg start_ sh).
  assert (HP : Forall (Forall2 in_axis sh) P).
  { apply Forall_forall. intros p Hp. apply ndindex_elem.
    unfold P, labeled_positions in Hp. by apply list_elem_of_filter in Hp as [_ ?]. }
  assert (HPlen : Forall (λ p, length p = length sh) P).
  { eapply Forall_impl; [exact HP|]. intros p. apply Forall2_in_axis_length. }
  unfold _extract_feature_matrix. cbn [FeatureImage LabelImage fst snd].
  change (meta (image_slot mF featimg)) with mF.
  unfold getitem_m1. rewrite HK. cbn [rbind].
  rewrite image_request by (rewrite length_zip_with; lia).
  cbn [rbind]. rewrite zip_with_sub_add by done.
  change (1 - 0) with 1. change (seqZ 0 1) with [0]. cbn [map].
  change (0 + 0) with 0.
  assert (Hflat : flat_map (λ q, [labimg (zip_with Z.add start_ q ++ [0])])
                           (ndindex sh)
                  = map (λ q, labimg (zip_with Z.add start_ q ++ [0]))
                        (ndindex sh)).
  { generalize (ndindex sh). intros l. induction l as [|q l IH]; [done|].
    simpl. by rewrite IH. }
  rewrite getitem_last_single
    by (rewrite Hflat, length_map, ndindex_length; done).
  cbn [rbind]. rewrite Hflat, nonzero_image by done.
  change (filter (λ q : list Z, labimg (zip_with Z.add start_ q ++ [0]) ≠ 0)
                 (ndindex sh)) with P.
  rewrite <- Hflat.
  rewrite (getitem_arrays_rows sh [1]
             (λ q, [labimg (zip_with Z.add start_ q ++ [0])]) P);
    [|done|done|done].
  cbn [rbind].
  destruct (length sh) as [|n] eqn:Hn; [by destruct sh|].
  destruct P as [|p0 P'] eqn:HPeq.
  { unfold index_arrays. simpl. done. }
  assert (Hc0 : match index_arrays (S n) (p0 :: P') with
                | [] => true
                | c0 :: _ => bool_decide (length c0 = 0%nat)
                end = false).
  { unfold index_arrays. simpl. done. }
  rewrite Hc0.
  destruct (bounding_box_exists (S n) p0 P' HPlen)
    as (mins & maxes & -> & -> & Hmins & Hmaxes & Hbox).
  cbn [rbind].
  rewrite image_request by (rewrite length_map; lia).
  cbn [rbind].
  rewrite feature_positions_eq by done.
  set (bsh := zip_with Z.sub (map (Z.add 1) maxes) mins).
  assert (Hbsh : length bsh = S n).
  { unfold bsh. rewrite length_zip_with, length_map. lia. }
  rewrite <- Hbsh.
  rewrite (getitem_arrays_rows bsh [K - 0]).
  - cbn [rbind]. unfold astype. cbn [shape flat].
    rewrite map_flat_map, length_map.
    rewrite flat_map_of_map.
    rewrite (concatenate_axis1_rows _ _ (p0 :: P') 1 (K - 0)).
    + rewrite Z.sub_0_r. do 2 f_equal.
      apply flat_map_ext_elem. intros p Hp. unfold block_row. simpl. f_equal.
      apply map_ext. intros ch. f_equal. f_equal.
      apply zip_with_add_sub. rewrite Hmins.
      symmetry. by apply (proj1 (Forall_forall _ _) HPlen).
    + done.
    + intros p _. rewrite length_map, length_seqZ. unfold size_of. simpl.
      f_equal. lia.
  - intros Hnil. by rewrite Hnil in Hbsh.
  - intros q _. rewrite length_map, length_seqZ. unfold size_of. simpl.
    f_equal. lia.
  - by apply Forall_fmap.
Qed.
Variable getBlockBounds : list Z → list Z → list Z → result (list Z * list Z).

(** X7: a recompute of a dirty block installs one row per labeled
    point of that block, in C order: the label of the point, then the
    features read at the position of the point counted from the start
    of the block ([block_row]); it takes the block out of the dirty
    blocks, and the matrices of the other blocks stay. *)
Theorem update_block_installs_labeled_rows (mF mL : slot_meta)
    (featimg : list Z → V) (labimg : list Z → Z)
    (b : list Z) (s : cache V) (bs start_ sh : list Z) (K : Z) :
  b ∈ _dirty_blocks s →
  _blockshape s = Some bs →
  getBlockBounds (meta_shape mL) bs b
  = Ok (start_ ++ [0], zip_with Z.add start_ sh ++ [1]) →
  last (meta_shape mF) = Some K →
  length start_ = length sh →
  sh ≠ [] →
  Forall (λ d, 0 ≤ d) sh →
  ∃ s',
    _update_block to_float getBlockBounds
      (mk_inputs (image_slot mF featimg) (image_slot mL labimg)) b s
    = (s', Ok tt)
    ∧ _dirty_blocks s' = _dirty_blocks s ∖ {[b]}
    ∧ _blockwise_feature_matrices s' !! b
      = Some (mk_ndarray
                [Z.of_nat (length (labeled_positions labimg start_ sh)); 1 + K]
                (flat_map (block_row to_float labimg featimg start_ K)
                          (labeled_positions labimg start_ sh)))
    ∧ (∀ b', b' ≠ b →
             _blockwise_feature_matrices s' !! b'
             = _blockwise_feature_matrices s !! b').
Proof.
  intros Hb Hbs Hroi HK Hlen Hsh Hnn.
  rewrite update_block_eq, bool_decide_eq_true_2 by done.
  unfold recompute. rewrite Hbs. cbn [LabelImage meta image_slot].
  rewrite Hroi. cbn [rbind].
  rewrite (extract_rows_of_images mF mL featimg labimg start_ sh K) by done.
  eexists. split; [reflexivity|]. simpl. split_and!; [done| |].
  - apply lookup_insert_eq.
  - intros b' Hne. by apply lookup_insert_ne.
Qed.

(** *** The block at the array origin *)

Lemma zip_with_add_zeros (p : list Z) :
  zip_with Z.add (replicate (length p) 0) p = p.
Proof. induction p as [|x p IH]; [done|]. simpl. by rewrite IH. Qed.

Lemma filter_ext_elem {B} (P1 P2 : B → Prop)
    `{!∀ x, Decision (P1 x)} `{!∀ x, Decision (P2 x)} (l : list B) :
  (∀ x, x ∈ l → P1 x ↔ P2 x) → filter P1 l = filter P2 l.
Proof.
  induction l as [|x l IH]; intros Hext; [done|].
  assert (Hl : filter P1 l = filter P2 l)
    by (apply IH; intros y Hy; apply Hext; by right).
  destruct (decide (P1 x)) as [H1|H1].
  - rewrite !filter_cons_True; [by rewrite Hl| |done].
    apply (Hext x); [by left|done].
  - rewrite !filter_cons_False; [done| |done].
    intros H2. apply H1, (Hext x); [by left|done].
Qed.

Lemma labeled_positions_origin (labimg : list Z → Z) (sh : list Z) :
  labeled_positions labimg (replicate (length sh) 0) sh
  = filter (λ p, labimg (p ++ [0]) ≠ 0) (ndindex sh).
Proof.
  unfold labeled_positions. apply filter_ext_elem.
  intros p Hp%ndindex_elem%Forall2_in_axis_length.
  by rewrite <- Hp, zip_with_add_zeros.
Qed.

Lemma block_rows_origin (labimg : list Z → Z) (featimg : list Z → V)
    (sh : list Z) (K : Z) :
  flat_map (block_row to_float labimg featimg (replicate (length sh) 0) K)
           (filter (λ p, labimg (p ++ [0]) ≠ 0) (ndindex sh))
  = flat_map (λ p, to_float (labimg (p ++ [0]))
                   :: map (λ ch, featimg (p ++ [ch])) (seqZ 0 K))
             (filter (λ p, labimg (p ++ [0]) ≠ 0) (ndindex sh)).
Proof.
  apply flat_map_ext_elem. intros p Hp.
  apply list_elem_of_filter in Hp as [_ Hp%ndindex_elem%Forall2_in_axis_length].
  unfold block_row. by rewrite <- Hp, zip_with_add_zeros.
Qed.

(** X8: for the block that starts at the array origin, the matrix has one
    row per labeled point of the block, and the row of a point holds the
    label and the K feature values of that very point. *)
Theorem origin_block_rows_are_right (mF mL : slot_meta)
    (featimg : list Z → V) (labimg : list Z → Z) (sh : list Z) (K : Z) :
  last (meta_shape mF) = Some K →
  sh ≠ [] →
  Forall (λ d, 0 ≤ d) sh →
  _extract_feature_matrix to_float
    (mk_inputs (image_slot mF featimg) (image_slot mL labimg))
    (replicate (length sh) 0 ++ [0], sh ++ [1])
  = Ok (mk_ndarray
          [Z.of_nat (length (filter (λ p, labimg (p ++ [0]) ≠ 0) (ndindex sh)));
           1 + K]
          (flat_map (λ p, to_float (labimg (p ++ [0]))
                          :: map (λ ch, featimg (p ++ [ch])) (seqZ 0 K))
                    (filter (λ p, labimg (p ++ [0]) ≠ 0) (ndindex sh)))).
Proof.
  intros HK Hsh Hnn.
  replace (sh ++ [1]) with (zip_with Z.add (replicate (length sh) 0) sh ++ [1])
    by (by rewrite zip_with_add_zeros).
  rewrite (extract_rows_of_images mF mL featimg labimg
             (replicate (length sh) 0) sh K);
    [|done|by rewrite length_replicate|done|done].
  by rewrite labeled_positions_origin, block_rows_origin.
Qed.

(** X9: an image held in one block: when the only dirty block is the block
    at the origin and no other block is cached, a read returns exactly
    one row per labeled point, with the label and the features of that
    point, and leaves nothing dirty. *)
Theorem single_block_read_is_complete (mF mL : slot_meta)
    (featimg : list Z → V) (labimg : list Z → Z)
    (b : list Z) (s : cache V) (bs sh : list Z) (K : Z) :
  _dirty_blocks s = {[b]} →
  dom (_blockwise_feature_matrices s) ⊆ {[b]} →
  _blockshape s = Some bs →
  getBlockBounds (meta_shape mL) bs b
  = Ok (replicate (length sh) 0 ++ [0], sh ++ [1]) →
  last (meta_shape mF) = Some K →
  sh ≠ [] →
  Forall (λ d, 0 ≤ d) sh →
  ∃ s',
    execute to_float getBlockBounds
      (mk_inputs (image_slot mF featimg) (image_slot mL labimg))
      Slot_LabelAndFeatureMatrix s
    = (s', Ok (mk_ndarray
                 [Z.of_nat (length (filter (λ p, labimg (p ++ [0]) ≠ 0)
                                           (ndindex sh)));
                  1 + K]
                 (flat_map (λ p, to_float (labimg (p ++ [0]))
                                 :: map (λ ch, featimg (p ++ [ch])) (seqZ 0 K))
                           (filter (λ p, labimg (p ++ [0]) ≠ 0) (ndindex sh)))))
    ∧ _dirty_blocks s' = ∅.
Proof.
  intros Hd Hdom Hbs Hroi HK Hsh Hnn.
  rewrite execute_eq. cbn zeta. rewrite Hd, elements_singleton, size_singleton.
  rewrite pool_run_cons, request_eq by done.
  cbn [_dirty_blocks fire_progress _blockshape].
  rewrite Hd, bool_decide_eq_true_2 by (by apply elem_of_singleton).
  unfold recompute at 1. rewrite Hbs. cbn [LabelImage meta image_slot].
  rewrite Hroi. cbn [rbind].
  replace (sh ++ [1]) with (zip_with Z.add (replicate (length sh) 0) sh ++ [1])
    by (by rewrite zip_with_add_zeros).
  rewrite (extract_rows_of_images mF mL featimg labimg
             (replicate (length sh) 0) sh K);
    [|done|by rewrite length_replicate|done|done].
  rewrite labeled_positions_origin, block_rows_origin.
  set (M := mk_ndarray _ _). set (q := percent_complete _ _).
  unfold requests. cbn [map pool_run].
  assert (Hmat : _blockwise_feature_matrices
                   (fire_progress q (installed b M (fire_progress 0%Q s)))
                 = {[b := M]}).
  { simpl. apply map_eq. intros b'. destruct (decide (b' = b)) as [->|Hne].
    - by rewrite lookup_insert_eq, lookup_singleton_eq.
    - rewrite lookup_insert_ne, lookup_singleton_ne by done.
      apply not_elem_of_dom. intros Hin%Hdom. by apply elem_of_singleton in Hin. }
  rewrite Hmat.
  rewrite bool_decide_eq_false_2 by (apply insert_non_empty).
  rewrite map_to_list_singleton. unfold concatenate_axis0. subst M.
  cbn [map snd shape flat forallb foldr head default concat].
  rewrite bool_decide_eq_true_2 by done. cbn [andb].
  rewrite Z.add_0_r, app_nil_r.
  eexists. split; [reflexivity|]. simpl. rewrite Hd.
  apply leibniz_equiv. intros x. rewrite elem_of_difference. set_solver.
Qed.
End BlockRows.

(** ** Setup again *)

Section CacheSetup.
Context {V : Type} (to_float : Z → V).
Variable determineBlockShape : list Z → Q → result (list Z).
Variable getBlockBounds : list Z → list Z → list Z → result (list Z * list Z).

Lemma setup_keeps_locks (inp : inputs V) (s : cache V) :
  _block_locks (fst (setupOutputs determineBlockShape inp s)) = _block_locks s.
Proof.
  unfold setupOutputs, bind, py_assert, lift, modify, ret, raise.
  repeat match goal with
         | |- context [match ?r with Ok _ => _ | Raise _ => _ end] =>
             destruct r; simpl
         | |- context [if ?c then _ else _] => destruct c; simpl
         end; done.
Qed.

(** X10: setup throws nothing away: run again, on whatever inputs and
    whether it returns or raises, it leaves the dirty blocks, the cached
    matrices and the locks as they are, so the next read of a cache
    without dirty blocks returns what it would have returned before,
    matrices of the former block grid included. *)
Theorem setup_discards_nothing (inp inp' : inputs V) (slot_ : slot) (s : cache V) :
  _dirty_blocks s = ∅ →
  _dirty_blocks (fst (setupOutputs determineBlockShape inp' s)) = ∅
  ∧ _blockwise_feature_matrices (fst (setupOutputs determineBlockShape inp' s))
    = _blockwise_feature_matrices s
  ∧ _block_locks (fst (setupOutputs determineBlockShape inp' s))
    = _block_locks s
  ∧ snd (execute to_float getBlockBounds inp slot_
           (fst (setupOutputs determineBlockShape inp' s)))
    = snd (execute to_float getBlockBounds inp slot_ s).
Proof.
  intros Hd.
  destruct (setup_frame determineBlockShape inp' s) as [Hd' Hm'].
  rewrite Hd in Hd'. split_and!; [done|done|apply setup_keeps_locks|].
  destruct (decide (slot_ = Slot_LabelAndFeatureMatrix)) as [->|Hslot].
  2:{ unfold execute, bind, py_assert, raise.
      by rewrite bool_decide_eq_false_2 by done. }
  rewrite !execute_eq. cbn zeta. rewrite Hd, Hd', elements_empty.
  unfold requests. cbn [map pool_run].
  cbn [_blockwise_feature_matrices fire_progress]. rewrite Hm'.
  destruct (bool_decide (_blockwise_feature_matrices s = ∅)); [done|].
  by destruct (concatenate_axis0 _).
Qed.
End CacheSetup.

(** * The schema of a json config file *)

(** ** Ordered dictionaries *)

Lemma od_get_key {A} (key : string) (d : list (string * A)) :
  is_Some (od_get key d) ↔ key ∈ od_keys d.
Proof.
  unfold od_keys. induction d as [|[k v] d IH]; simpl.
  - split; [by intros [? ?]|by intros ?%elem_of_nil].
  - rewrite elem_of_cons. destruct (decide (k = key)) as [->|Hne].
    + split; [by left|by eexists].
    + rewrite IH. split; [by right|]. by intros [?|?].
Qed.

Lemma od_get_None {A} (key : string) (d : list (string * A)) :
  od_get key d = None ↔ key ∉ od_keys d.
Proof. rewrite <- od_get_key, eq_None_not_Some. done. Qed.

Lemma od_set_fresh {A} (key : string) (val : A) (d : list (string * A)) :
  key ∉ od_keys d → od_set key val d = d ++ [(key, val)].
Proof.
  unfold od_keys. induction d as [|[k v] d IH]; simpl; [done|].
  rewrite not_elem_of_cons. intros [Hne Hd].
  rewrite decide_False by done. by rewrite IH.
Qed.

Lemma od_get_app {A} (key : string) (d1 d2 : list (string * A)) :
  od_get key (d1 ++ d2)
  = match od_get key d1 with Some v => Some v | None => od_get key d2 end.
Proof.
  induction d1 as [|[k v] d1 IH]; simpl; [done|].
  by destruct (decide (k = key)).
Qed.

Lemma od_get_elem {A} (key : string) (val : A) (d : list (string * A)) :
  NoDup (od_keys d) → (key, val) ∈ d → od_get key d = Some val.
Proof.
  unfold od_keys. induction d as [|[k v] d IH]; simpl.
  - by intros _ ?%elem_of_nil.
  - intros [Hk Hd]%NoDup_cons [Heq|Hin]%elem_of_cons.
    + injection Heq as -> ->. by rewrite decide_True.
    + rewrite decide_False; [by apply IH|]. intros ->. apply Hk.
      apply list_elem_of_fmap. by exists (key, val).
Qed.

(** ** The two loops of [_getNamespace] *)

Section Schema.
Variable _fields : list (string * field_type).

Lemma parse_items_app (l1 l2 : list (string * pyval)) (ns : Namespace) :
  parse_items _fields (l1 ++ l2) ns
  = match parse_items _fields l1 ns with
    | Done ns1 => parse_items _fields l2 ns1
    | Raised e => Raised e
    end.
Proof.
  revert ns. induction l1 as [|[k v] l1 IH]; intros ns; simpl; [done|].
  destruct (od_get k _fields) as [ft|]; [|apply IH].
  destruct (_transformValue ft v) as [w|[msg|e]]; [apply IH|done|done].
Qed.

Lemma accepted_items_keys (l : list (string * pyval)) :
  Forall (item_passes _fields) l →
  od_keys (omap (accepted_item _fields) l)
  = filter (λ key, key ∈ od_keys _fields) (od_keys l).
Proof.
  induction l as [|[k v] l IH]; intros Hpass; [done|].
  apply Forall_cons in Hpass as [Hkv Hl]. specialize (IH Hl).
  change (od_keys ((k, v) :: l)) with (k :: od_keys l).
  change (omap (accepted_item _fields) ((k, v) :: l))
    with (match accepted_item _fields (k, v) with
          | Some y => y :: omap (accepted_item _fields) l
          | None => omap (accepted_item _fields) l
          end).
  unfold accepted_item, item_passes in *. cbn [fst snd] in *.
  destruct (od_get k _fields) as [ft|] eqn:Hft.
  - destruct (Hkv ft eq_refl) as [w ->].
    rewrite filter_cons_True by (apply od_get_key; by rewrite Hft).
    change (od_keys ((k, w) :: ?x)) with (k :: od_keys x). by rewrite IH.
  - rewrite filter_cons_False by (by apply od_get_None). done.
Qed.

Lemma accepted_items_keys_sub (l : list (string * pyval)) (key : string) :
  key ∈ od_keys (omap (accepted_item _fields) l) →
  key ∈ od_keys l ∧ key ∈ od_keys _fields.
Proof.
  unfold od_keys. intros Hk.
  apply list_elem_of_fmap in Hk as ([k w] & -> & Hin).
  apply list_elem_of_omap in Hin as ([k' v] & Hin & Hacc).
  unfold accepted_item in Hacc. simpl in *.
  destruct (od_get k' _fields) as [ft|] eqn:Hft; [|done].
  destruct (_transformValue ft v); [|done]. injection Hacc as -> ->.
  split.
  - apply list_elem_of_fmap. by exists (k, v).
  - apply od_get_key. by rewrite Hft.
Qed.

(** When the first loop returns, the namespace holds the accepted
    items of the config, in the order of the config. *)
Lemma parse_items_done (l : list (string * pyval)) (ns : Namespace) :
  NoDup (od_keys l) →
  parse_items _fields l Namespace_new = Done ns →
  _items ns = omap (accepted_item _fields) l
  ∧ Forall (item_passes _fields) l.
Proof.
  revert ns. induction l as [|[k v] l IH] using rev_ind; intros ns Hnd Hrun.
  - simpl in Hrun. injection Hrun as <-. by split.
  - rewrite parse_items_app in Hrun.
    unfold od_keys in Hnd. rewrite map_app in Hnd.
    apply NoDup_app in Hnd as (Hnd & Hfresh & _).
    destruct (parse_items _fields l Namespace_new) as [ns1|e] eqn:Hl; [|done].
    destruct (IH ns1 Hnd eq_refl) as [Hitems Hpass].
    rewrite omap_app, Forall_app.
    change (parse_items _fields [(k, v)] ns1)
      with (match od_get k _fields with
            | Some fieldType =>
                match _transformValue fieldType v with
                | Done finalValue => Done (__setattr__ ns1 k finalValue)
                | Raised (ParsingError msg) =>
                    Raised (ParsingError ("Error parsing config field '" +:+ k
                                          +:+ "':" +:+ newline +:+ msg))
                | Raised e => Raised e
                end
            | None => Done ns1
            end) in Hrun.
    change (omap (accepted_item _fields) [(k, v)])
      with (match accepted_item _fields (k, v) with
            | Some y => [y] | None => [] end).
    unfold accepted_item, item_passes. cbn [fst snd].
    destruct (od_get k _fields) as [ft|] eqn:Hft.
    + destruct (_transformValue ft v) as [w|[msg|e]] eqn:Htr; [|done|done].
      injection Hrun as <-. split.
      * cbn [__setattr__ _items]. rewrite Hitems. apply od_set_fresh. intros Hk.
        apply accepted_items_keys_sub in Hk as [Hk _].
        apply (Hfresh k); [done|]. by left.
      * split; [done|]. apply Forall_singleton.
        intros ft' Hft'. cbn [fst snd] in *. rewrite Hft in Hft'.
        injection Hft' as <-. by eexists.
    + injection Hrun as <-. rewrite app_nil_r. split; [done|].
      split; [done|]. apply Forall_singleton.
      intros ft' Hft'. cbn [fst snd] in *. by rewrite Hft in Hft'.
Qed.

Lemma parse_items_passes (l : list (string * pyval)) (ns : Namespace) :
  Forall (item_passes _fields) l →
  ∃ ns', parse_items _fields l ns = Done ns'.
Proof.
  revert ns. induction l as [|[k v] l IH]; intros ns Hpass; simpl.
  - by eexists.
  - apply Forall_cons in Hpass as [Hkv Hl]. unfold item_passes in Hkv.
    simpl in Hkv. destruct (od_get k _fields) as [ft|]; [|by apply IH].
    destruct (Hkv ft eq_refl) as [w ->]. by apply IH.
Qed.

Lemma fill_defaults_items (keys : list string) (ns : Namespace) :
  NoDup keys →
  _items (fill_defaults keys ns)
  = _items ns
    ++ map (λ key, (key, PyNone))
           (filter (λ key, key ∉ od_keys (_items ns)) keys).
Proof.
  revert ns. induction keys as [|k keys IH]; intros ns Hnd.
  - simpl. by rewrite app_nil_r.
  - apply NoDup_cons in Hnd as [Hk Hnd]. simpl. unfold __dict__.
    case_bool_decide as Hin.
    + rewrite IH by done. by rewrite filter_cons_False by (by intros H; apply H).
    + rewrite IH by done. rewrite filter_cons_True by done. simpl.
      rewrite od_set_fresh by done. rewrite <- app_assoc. simpl. do 3 f_equal.
      apply filter_ext_elem. intros k' Hk'. unfold od_keys.
      rewrite map_app, elem_of_app. simpl. rewrite list_elem_of_singleton.
      split; [intros H ?; apply H; by left|].
      intros H [?|?]; [by apply H|by subst].
Qed.

(** The items of the namespace [_getNamespace] returns. *)
Lemma getNamespace_items (configDict : list (string * pyval)) (ns : Namespace) :
  NoDup (od_keys configDict) →
  NoDup (od_keys _fields) →
  _getNamespace _fields configDict = Done ns →
  _items ns
  = omap (accepted_item _fields) configDict
    ++ map (λ key, (key, PyNone))
           (filter (λ key, key ∉ od_keys configDict) (od_keys _fields))
  ∧ Forall (item_passes _fields) configDict.
Proof.
  intros Hc Hf Hrun. unfold _getNamespace in Hrun.
  destruct (parse_items _fields configDict Namespace_new) as [ns1|e] eqn:Hp;
    [|done].
  injection Hrun as <-.
  destruct (parse_items_done _ _ Hc Hp) as [Hitems Hpass].
  split; [|done]. rewrite fill_defaults_items by done. rewrite Hitems.
  f_equal. f_equal. apply filter_ext_elem. intros key Hkey. split.
  - intros Hn Hin. apply Hn. unfold od_keys.
    apply list_elem_of_fmap in Hin as ([k v] & -> & Hin). simpl.
    apply (proj1 (Forall_forall _ _) Hpass) in Hin as Hkv.
    apply od_get_key in Hkey as [ft Hft]. destruct (Hkv ft Hft) as [w Hw].
    apply list_elem_of_fmap. exists (k, w). split; [done|].
    apply list_elem_of_omap. exists (k, v). split; [done|].
    unfold accepted_item. simpl in *. by rewrite Hft, Hw.
  - intros Hn Hin. apply Hn. by apply accepted_items_keys_sub in Hin as [? _].
Qed.

Lemma od_get_Some_elem {A} (key : string) (val : A) (d : list (string * A)) :
  od_get key d = Some val → (key, val) ∈ d.
Proof.
  induction d as [|[k v] d IH]; simpl; [done|].
  destruct (decide (k = key)) as [->|Hne].
  - intros [= ->]. by left.
  - intros H. right. by apply IH.
Qed.

Lemma od_get_defaults (key : string) (keys : list string) :
  od_get key (map (λ k, (k, PyNone)) keys)
  = if decide (key ∈ keys) then Some PyNone else None.
Proof.
  induction keys as [|k keys IH]; cbn [map od_get].
  - destruct (decide (key ∈ [])) as [Hin|]; [|done]. by apply elem_of_nil in Hin.
  - destruct (decide (k = key)) as [->|Hne].
    + destruct (decide (key ∈ key :: keys)) as [|Hout]; [done|].
      exfalso. apply Hout. by left.
    + rewrite IH. destruct (decide (key ∈ keys)) as [Hin|Hin];
        destruct (decide (key ∈ k :: keys)) as [Hin'|Hin']; try done.
      * exfalso. apply Hin'. by right.
      * by apply elem_of_cons in Hin' as [?|?].
Qed.

Lemma parse_items_done_passes (l : list (string * pyval)) (ns ns' : Namespace) :
  parse_items _fields l ns = Done ns' → Forall (item_passes _fields) l.
Proof.
  revert ns. induction l as [|[k v] l IH]; intros ns Hrun; [done|].
  simpl in Hrun. apply Forall_cons. unfold item_passes. cbn [fst snd].
  destruct (od_get k _fields) as [ft|] eqn:Hft.
  - destruct (_transformValue ft v) as [w|[msg|e]] eqn:Htr; [|done|done].
    split; [|by eapply IH]. intros ft' [= <-]. by eexists.
  - split; [done|by eapply IH].
Qed.

(** The attribute names of the namespace, in order. *)
Lemma getNamespace_keys (configDict : list (string * pyval)) (ns : Namespace) :
  NoDup (od_keys configDict) →
  NoDup (od_keys _fields) →
  _getNamespace _fields configDict = Done ns →
  od_keys (__dict__ ns)
  = filter (λ key, key ∈ od_keys _fields) (od_keys configDict)
    ++ filter (λ key, key ∉ od_keys configDict) (od_keys _fields).
Proof.
  intros Hc Hf Hrun.
  destruct (getNamespace_items _ _ Hc Hf Hrun) as [Hitems Hpass].
  unfold __dict__. rewrite Hitems.
  change (od_keys (?a ++ ?b)) with (map fst (a ++ b)).
  rewrite map_app, map_map. cbn [fst]. rewrite map_id.
  f_equal. by apply accepted_items_keys.
Qed.

Lemma getNamespace_keys_NoDup (configDict : list (string * pyval))
    (ns : Namespace) :
  NoDup (od_keys configDict) →
  NoDup (od_keys _fields) →
  _getNamespace _fields configDict = Done ns →
  NoDup (od_keys (__dict__ ns)).
Proof.
  intros Hc Hf Hrun. rewrite (getNamespace_keys _ _ Hc Hf Hrun).
  apply NoDup_app. split_and!.
  - by apply NoDup_filter.
  - intros key [_ Hin]%list_elem_of_filter [Hout _]%list_elem_of_filter. done.
  - by apply NoDup_filter.
Qed.

Lemma filter_none {A} (P : A → Prop) `{∀ x, Decision (P x)} (l : list A) :
  (∀ x, x ∈ l → ¬ P x) → filter P l = [].
Proof.
  induction l as [|x l IH]; intros Hl; [done|].
  rewrite filter_cons_False by (apply Hl; by left).
  apply IH. intros y Hy. apply Hl. by right.
Qed.

Lemma transformValue_again (fieldType : field_type) (val out : pyval) :
  idempotent_type fieldType →
  _transformValue fieldType val = Done out →
  _transformValue fieldType out = Done out.
Proof.
  intros Hid Htr. destruct fieldType as [|call]; simpl in Hid.
  - destruct val; simpl in Htr; try discriminate; by injection Htr as <-.
  - assert (out = PyNone ∨ call out = Done out) as [->|Hout].
    { destruct val; simpl in Htr;
        [injection Htr as <-; by left|by eapply Hid ..]. }
    + done.
    + by destruct out.
Qed.

(** ** What a parsed namespace holds *)

Section Reading.
Context {A : Type} (normal_lookup : Namespace → string → option A).

(** X11: the dictionary of the namespace [_getNamespace] returns has
    the fields of the schema as its keys and no other: a key of the
    config that the schema does not know is dropped.  Reading such a
    name from the namespace gives what the normal lookup finds for it,
    and raises KeyError when the normal lookup finds nothing. *)
Theorem namespace_has_exactly_the_schema_fields
    (configDict : list (string * pyval)) (ns : Namespace) :
  NoDup (od_keys configDict) →
  NoDup (od_keys _fields) →
  _getNamespace _fields configDict = Done ns →
  (∀ key, key ∈ od_keys (__dict__ ns) ↔ key ∈ od_keys _fields)
  ∧ (∀ key, key ∉ od_keys _fields →
            getattr normal_lookup ns key
            = match normal_lookup ns key with
              | Some a => Done (inl a)
              | None => Raised (Uncaught KeyError)
              end).
Proof.
  intros Hc Hf Hrun.
  assert (∀ key, key ∈ od_keys (__dict__ ns) ↔ key ∈ od_keys _fields) as Hkeys.
  { intros key. rewrite (getNamespace_keys _ _ Hc Hf Hrun).
    rewrite elem_of_app, !list_elem_of_filter. split.
    - by intros [[? _]|[_ ?]].
    - intros Hin. destruct (decide (key ∈ od_keys configDict)); [left|right]; done. }
  split; [done|]. intros key Hout. unfold getattr, __getattr__.
  destruct (normal_lookup ns key) as [a|]; [done|].
  destruct (od_get key (_items ns)) as [val|] eqn:Hget; [|done].
  exfalso. apply Hout, Hkeys. apply od_get_key. unfold __dict__. by rewrite Hget.
Qed.

(** X12: the value of each field of the schema in the dictionary of
    the namespace: what [_transformValue] makes of the config's value
    with the type of the field when the config sets the field, None
    when the config leaves it out.  Reading the field from the
    namespace gives that value, unless the normal lookup finds the
    name of the field: then it gives what the normal lookup found. *)
Theorem namespace_values (configDict : list (string * pyval)) (ns : Namespace)
    (key : string) (fieldType : field_type) :
  NoDup (od_keys configDict) →
  NoDup (od_keys _fields) →
  _getNamespace _fields configDict = Done ns →
  od_get key _fields = Some fieldType →
  ∃ val,
    match od_get key configDict with
    | Some v => _transformValue fieldType v
    | None => Done PyNone
    end = Done val
    ∧ od_get key (__dict__ ns) = Some val
    ∧ getattr normal_lookup ns key
      = match normal_lookup ns key with
        | Some a => Done (inl a)
        | None => Done (inr val)
        end.
Proof.
  intros Hc Hf Hrun Hft.
  destruct (getNamespace_items _ _ Hc Hf Hrun) as [Hitems Hpass].
  assert (∃ val,
            match od_get key configDict with
            | Some v => _transformValue fieldType v
            | None => Done PyNone
            end = Done val
            ∧ od_get key (_items ns) = Some val) as (val & Hval & Hget).
  { rewrite Hitems, od_get_app.
    destruct (od_get key configDict) as [v|] eqn:Hv.
    - apply od_get_Some_elem in Hv as Hin.
      destruct (proj1 (Forall_forall _ _) Hpass _ Hin fieldType Hft) as [w Hw].
      cbn [fst snd] in Hw. exists w. split; [done|].
      rewrite (od_get_elem key w); [done| |].
      + rewrite accepted_items_keys by done. by apply NoDup_filter.
      + apply list_elem_of_omap. exists (key, v). split; [done|].
        unfold accepted_item. cbn [fst snd]. by rewrite Hft, Hw.
    - apply od_get_None in Hv. exists PyNone. split; [done|].
      assert (od_get key (omap (accepted_item _fields) configDict) = None) as ->.
      { apply od_get_None. by intros [? _]%accepted_items_keys_sub. }
      rewrite od_get_defaults, decide_True; [done|].
      apply list_elem_of_filter. split; [done|].
      apply od_get_key. by rewrite Hft. }
  exists val. split_and!; [done|done|].
  unfold getattr, __getattr__. rewrite Hget.
  by destruct (normal_lookup ns key).
Qed.
End Reading.

(** X13: the order of the attributes, which is the order of the
    dictionary [writeConfigFile] dumps: first the fields the config
    sets, in the order of the config, then the fields it leaves out,
    in the order of the schema. *)
Theorem namespace_key_order (configDict : list (string * pyval))
    (ns : Namespace) :
  NoDup (od_keys configDict) →
  NoDup (od_keys _fields) →
  _getNamespace _fields configDict = Done ns →
  od_keys (__dict__ ns)
  = filter (λ key, key ∈ od_keys _fields) (od_keys configDict)
    ++ filter (λ key, key ∉ od_keys configDict) (od_keys _fields).
Proof.
  intros Hc Hf Hrun.
  destruct (getNamespace_items _ _ Hc Hf Hrun) as [Hitems Hpass].
  unfold __dict__. rewrite Hitems.
  change (od_keys (?a ++ ?b)) with (map fst (a ++ b)).
  rewrite map_app, map_map. cbn [fst]. rewrite map_id.
  f_equal. by apply accepted_items_keys.
Qed.

(** ** Errors *)


(** X15: [_getNamespace] returns a namespace exactly when every item
    of the config passes: keys the schema does not know and fields the
    config leaves out never make it raise. *)
Theorem parse_succeeds_iff_every_item_passes
    (configDict : list (string * pyval)) :
  (∃ ns, _getNamespace _fields configDict = Done ns)
  ↔ Forall (item_passes _fields) configDict.
Proof.
  unfold _getNamespace. split.
  - intros [ns Hrun].
    destruct (parse_items _fields configDict Namespace_new) as [ns1|e] eqn:Hp;
      [|done].
    by eapply parse_items_done_passes.
  - intros Hpass.
    destruct (parse_items_passes configDict Namespace_new Hpass) as [ns1 ->].
    by eexists.
Qed.

(** ** Writing a parsed namespace *)

(** X16: when the types of the schema give back unchanged what they
    have made, a namespace that [_getNamespace] returned passes the
    check of [writeConfigFile], and what is dumped is the dictionary
    of the namespace itself, same keys, same values, same order. *)
Theorem written_config_is_the_parsed_one (configDict : list (string * pyval))
    (ns : Namespace) :
  NoDup (od_keys configDict) →
  NoDup (od_keys _fields) →
  (∀ key fieldType, od_get key _fields = Some fieldType →
                    idempotent_type fieldType) →
  _getNamespace _fields configDict = Done ns →
  writeConfigFile _fields ns = Done (__dict__ ns).
Proof.
  intros Hc Hf Hid Hrun.
  destruct (getNamespace_items _ _ Hc Hf Hrun) as [Hitems Hpass].
  pose proof (getNamespace_keys_NoDup _ _ Hc Hf Hrun) as Hnd.
  pose proof (getNamespace_keys _ _ Hc Hf Hrun) as Hkeys.
  assert (Forall (λ item, ∃ ft, od_get (fst item) _fields = Some ft
                           ∧ _transformValue ft (snd item) = Done (snd item))
                 (__dict__ ns)) as Hfix.
  { unfold __dict__. rewrite Hitems. apply Forall_app. split.
    - apply Forall_forall. intros [k w] Hin.
      apply list_elem_of_omap in Hin as ([k' v] & Hin & Hacc).
      unfold accepted_item in Hacc. cbn [fst snd] in *.
      destruct (od_get k' _fields) as [ft|] eqn:Hft; [|done].
      destruct (_transformValue ft v) as [w'|] eqn:Htr; [|done].
      injection Hacc as -> ->. exists ft. split; [done|].
      eapply transformValue_again; [by eapply Hid|done].
    - apply Forall_forall. intros [k w] Hin.
      apply list_elem_of_fmap in Hin as (k' & [= -> ->] & Hin).
      apply list_elem_of_filter in Hin as [_ Hin].
      apply od_get_key in Hin as [ft Hft]. by exists ft. }
  assert (Forall (item_passes _fields) (__dict__ ns)) as Hpass'.
  { eapply Forall_impl; [exact Hfix|]. intros [k w] (ft & Hft & Htr) ft' Hft'.
    cbn [fst snd] in *. rewrite Hft in Hft'. injection Hft' as <-. by eexists. }
  assert (omap (accepted_item _fields) (__dict__ ns) = __dict__ ns) as Hsame.
  { clear -Hfix. induction (__dict__ ns) as [|[k w] d IH]; [done|].
    apply Forall_cons in Hfix as [(ft & Hft & Htr) Hd]. cbn [fst snd] in *.
    change (omap (accepted_item _fields) ((k, w) :: d))
      with (match accepted_item _fields (k, w) with
            | Some y => y :: omap (accepted_item _fields) d
            | None => omap (accepted_item _fields) d
            end).
    unfold accepted_item at 1. cbn [fst snd]. rewrite Hft, Htr.
    by rewrite IH. }
  unfold writeConfigFile, _getNamespace.
  destruct (parse_items_passes _ Namespace_new Hpass') as [ns1 Hp].
  rewrite Hp. f_equal.
  destruct (parse_items_done _ _ Hnd Hp) as [Hitems1 _].
  unfold __dict__ at 1. rewrite fill_defaults_items by done.
  rewrite Hitems1, Hsame.
  assert (filter (λ key, key ∉ od_keys (__dict__ ns)) (od_keys _fields) = [])
    as ->.
  { apply filter_none. intros key Hin Hout. apply Hout. rewrite Hkeys.
    rewrite elem_of_app, !list_elem_of_filter.
    destruct (decide (key ∈ od_keys configDict)); [left|right]; done. }
  cbn [map]. by rewrite app_nil_r.
Qed.
End Schema.

(** * Instances of the further properties *)

(** ** The line and the cube *)

Lemma update_block_again_changes_nothing_line :
  _update_block id spec_getBlockBounds line_inputs_no_features [2; 0]
    (fst (_update_block id spec_getBlockBounds line_inputs [2; 0] line_dirty))
  = (fst (_update_block id spec_getBlockBounds line_inputs [2; 0] line_dirty),
     Ok tt).
Proof.
  apply (update_block_again_changes_nothing id spec_getBlockBounds
           line_inputs line_inputs_no_features [2; 0] line_dirty).
  by vm_compute.
Defined.

Lemma update_block_installs_labeled_rows_line :
  ∃ s', _update_block id spec_getBlockBounds line_inputs [2; 0] line_dirty
        = (s', Ok tt)
        ∧ _dirty_blocks s' = _dirty_blocks line_dirty ∖ {[ [2; 0] ]}
        ∧ _blockwise_feature_matrices s' !! [2; 0]
          = Some (mk_ndarray [1; 2] [1; 10])
        ∧ (∀ b', b' ≠ [2; 0] →
                 _blockwise_feature_matrices s' !! b'
                 = _blockwise_feature_matrices line_dirty !! b').
Proof.
  apply (update_block_installs_labeled_rows id spec_getBlockBounds
           line_meta line_meta line_features line_labels
           [2; 0] line_dirty [2; 1] [2] [2] 1).
  - by vm_compute.
  - reflexivity.
  - reflexivity.
  - reflexivity.
  - reflexivity.
  - done.
  - repeat constructor. lia.
Defined.

Lemma origin_block_rows_are_right_cube :
  _extract_feature_matrix id cube_inputs ([0; 0; 0; 0], [4; 4; 4; 1])
  = Ok (mk_ndarray [2; 2] [1; 0; 2; 9]).
Proof.
  apply (origin_block_rows_are_right id cube_meta cube_meta
           cube_features cube_labels [4; 4; 4] 1).
  - reflexivity.
  - done.
  - repeat constructor; lia.
Defined.

Lemma single_block_read_is_complete_cube :
  ∃ s', execute id spec_getBlockBounds cube_inputs
          Slot_LabelAndFeatureMatrix cube_dirty
        = (s', Ok (mk_ndarray [2; 2] [1; 0; 2; 9]))
        ∧ _dirty_blocks s' = ∅.
Proof.
  apply (single_block_read_is_complete id spec_getBlockBounds
           cube_meta cube_meta cube_features cube_labels
           [0; 0; 0; 0] cube_dirty [4; 4; 4; 1] [4; 4; 4] 1).
  - by vm_compute.
  - assert (_blockwise_feature_matrices cube_dirty = ∅) as ->
      by (by vm_compute).
    rewrite dom_empty_L. apply empty_subseteq.
  - reflexivity.
  - reflexivity.
  - reflexivity.
  - done.
  - repeat constructor; lia.
Defined.

Lemma setup_discards_nothing_line :
  let s := fst (execute id spec_getBlockBounds line_inputs
                        Slot_LabelAndFeatureMatrix line_dirty) in
  let s' := fst (setupOutputs whole_array_block volume_inputs s) in
  _dirty_blocks s' = ∅
  ∧ _blockwise_feature_matrices s' = _blockwise_feature_matrices s
  ∧ _block_locks s' = _block_locks s
  ∧ snd (execute id spec_getBlockBounds line_inputs
                 Slot_LabelAndFeatureMatrix s')
    = snd (execute id spec_getBlockBounds line_inputs
                   Slot_LabelAndFeatureMatrix s).
Proof.
  apply (setup_discards_nothing id whole_array_block spec_getBlockBounds
           line_inputs volume_inputs Slot_LabelAndFeatureMatrix
           (fst (execute id spec_getBlockBounds line_inputs
                         Slot_LabelAndFeatureMatrix line_dirty))).
  by vm_compute.
Defined.

(** ** A schema with three fields *)

Lemma namespace_has_exactly_the_schema_fields_example :
  getattr example_lookup example_namespace "comment"
  = Raised (Uncaught KeyError).
Proof.
  apply (proj2 (namespace_has_exactly_the_schema_fields example_fields
                  example_lookup example_config example_namespace
                  ltac:(compute_done) ltac:(compute_done) eq_refl)
               "comment").
  compute_done.
Defined.

Lemma namespace_values_example :
  ∃ val, Done (PyInt 4) = Done val
         ∧ od_get "workers" (__dict__ example_namespace) = Some val
         ∧ getattr example_lookup example_namespace "workers"
           = Done (inr val).
Proof.
  apply (namespace_values example_fields example_lookup example_config
           example_namespace "workers" (FT_callable nonneg_int)).
  - compute_done.
  - compute_done.
  - reflexivity.
  - reflexivity.
Defined.

Lemma namespace_key_order_example :
  od_keys (__dict__ example_namespace) = ["workers"; "verbose"; "retries"].
Proof.
  apply (namespace_key_order example_fields example_config example_namespace).
  - compute_done.
  - compute_done.
  - reflexivity.
Defined.


Lemma written_config_is_the_parsed_one_example :
  writeConfigFile example_fields example_namespace
  = Done (__dict__ example_namespace).
Proof.
  apply (written_config_is_the_parsed_one example_fields example_config
           example_namespace).
  - compute_done.
  - compute_done.
  - assert (Hint : idempotent_type (FT_callable nonneg_int)).
    { intros val out Hcall. right. destruct val; try discriminate.
      simpl in Hcall. destruct (decide (0 ≤ n)); [|discriminate].
      injection Hcall as <-. simpl. by rewrite decide_True. }
    intros key ft Hft. simpl in Hft.
    repeat (case_decide; [by injection Hft as <-|]). done.
  - reflexivity.
Defined.
